(** * JSentinel: the analysis engine, embedded and checked

    A shallow embedding of the analysis core of JSentinel: the version-range
    matcher of [src/scanner.ts] and of the older [src/scanner.js], the
    severity filter, the AST pattern matcher, the data-flow graph with its
    source and sink queries, the worker protocol of the parallel scanner and
    the vulnerability cache ([Cache] and [VulnerabilityCache]); and, around
    these, the manifest scan, the walk over a project directory and the
    token ids of the model.

    Part I holds the embedding, one module per component, each definition
    under the name of the function it renders.  Part II holds the facts
    about the specification's statements, Part III further laws of the same
    code. *)

From Stdlib Require Import ZArith NArith List Ascii String Bool Lia.
From Stdlib Require Import DecimalString DecimalN DecimalFacts.
From stdpp Require Import base option list gmap strings.

Local Open Scope string_scope.
Local Open Scope Z_scope.

Set Warnings "-register-all".

(** * Part I: the embedding *)

(** ** ECMAScript primitives the scanner relies on *)

Module JS.

(** A JavaScript number as far as version arithmetic needs it: [NaN], or a
    non-negative integer.  The rendering is exact for integers below
    [2^53]; beyond that a double rounds. *)
Inductive number : Type :=
  | NaN
  | Num (n : N).

(** A call either returns or throws.  [SyntaxError] is what the [RegExp]
    constructor and the parser raise, [TypeError] a property read on
    [undefined], [RangeError] an exhausted call stack. *)
Inductive exn : Type :=
  | SyntaxError
  | TypeError
  | RangeError.

Inductive outcome (A : Type) : Type :=
  | Returns (a : A)
  | Throws (e : exn).
Arguments Returns {A} a.
Arguments Throws {A} e.

Definition bind {A B} (m : outcome A) (k : A -> outcome B) : outcome B :=
  match m with
  | Returns a => k a
  | Throws e => Throws e
  end.

(** [returns m]: the call [m] comes back with a value. *)
Definition returns {A} (m : outcome A) : Prop := exists a, m = Returns a.

(** Truthiness of a string: only the empty string is falsy. *)
Definition truthy_string (s : string) : bool :=
  match s with
  | EmptyString => false
  | String _ _ => true
  end.

(** Truthiness of [s] when [s] may be [undefined]. *)
Definition truthy (o : option string) : bool :=
  match o with
  | Some s => truthy_string s
  | None => false
  end.

(** Truthiness of a number: [NaN] and [0] are falsy. *)
Definition truthy_number (x : number) : bool :=
  match x with
  | Num n => negb (N.eqb n 0)
  | NaN => false
  end.

Definition is_digit (c : ascii) : bool :=
  let n := nat_of_ascii c in (Nat.leb 48 n && Nat.leb n 57)%bool.

Definition dot : ascii := "."%char.

Fixpoint all_chars (f : ascii -> bool) (s : string) : bool :=
  match s with
  | EmptyString => true
  | String c r => (f c && all_chars f r)%bool
  end.

(** A string without a dot. *)
Definition no_dot (s : string) : bool :=
  all_chars (fun c => negb (Ascii.eqb c dot)) s.

(** [s.split('.')]: never empty, the empty string splits into [[""]]. *)
Fixpoint split (s : string) : list string :=
  match s with
  | EmptyString => [EmptyString]
  | String c r =>
      if Ascii.eqb c dot then EmptyString :: split r
      else match split r with
           | h :: t => String c h :: t
           | [] => [String c EmptyString]
           end
  end.

(** [xs.join('.')] on strings. *)
Definition join (xs : list string) : string := String.concat "." xs.

(** [Number(s)] on the strings a sanitised version is made of: the empty
    string is [0], a run of decimal digits is its value, and anything else
    is read as [NaN].  (Signs, exponents, radix prefixes, surrounding blanks
    and [Infinity] are outside this rendering; the sanitiser of
    [scanDependencies] removes them from a dependency's version.) *)
Definition Number (s : string) : number :=
  match s with
  | EmptyString => Num 0
  | _ => match NilZero.uint_of_string s with
         | Some d => Num (N.of_uint d)
         | None => NaN
         end
  end.

(** [String(x)] for a number. *)
Definition toString (x : number) : string :=
  match x with
  | NaN => "NaN"
  | Num n => NilZero.string_of_uint (N.to_uint n)
  end.

(** [x || 0] where [x] is an array element that may be missing. *)
Definition or0 (x : option number) : Z :=
  match x with
  | Some (Num n) => Z.of_N n
  | _ => 0
  end.

(** [Array.prototype.some] with a callback that may throw: left to right,
    stopping at the first element the callback accepts. *)
Definition some {A} (f : A -> outcome bool) : list A -> outcome bool :=
  fix go (l : list A) : outcome bool :=
    match l with
    | [] => Returns false
    | x :: r => bind (f x) (fun b => if b then Returns true else go r)
    end.

(** [[...new Set(xs)]]: duplicates dropped, first occurrences kept in
    order. *)
Fixpoint uniq_from (seen xs : list string) : list string :=
  match xs with
  | [] => []
  | x :: r =>
      if existsb (String.eqb x) seen then uniq_from seen r
      else x :: uniq_from (x :: seen) r
  end.

Definition uniq (xs : list string) : list string := uniq_from [] xs.

(** A [Map] keyed by strings.  Iteration follows insertion order and
    [set] on a present key keeps the key's place. *)
Definition jsmap (V : Type) : Type := list (string * V).

Fixpoint map_get {V} (m : jsmap V) (k : string) : option V :=
  match m with
  | [] => None
  | (k', v) :: r => if String.eqb k' k then Some v else map_get r k
  end.

Fixpoint map_set {V} (m : jsmap V) (k : string) (v : V) : jsmap V :=
  match m with
  | [] => [(k, v)]
  | (k', v') :: r =>
      if String.eqb k' k then (k', v) :: r else (k', v') :: map_set r k v
  end.

End JS.

Notation "'let*' x ':=' m 'in' k" := (JS.bind m (fun x => k))
  (at level 10, x name, m at level 100, k at level 200).

(** ** Version ranges: [isVersionInRange], [compareVersions] of
       [src/scanner.ts]; [_isVersionVulnerable], [_parseVersion] of
       [src/scanner.js] *)

Module Version.
Import JS.

(** [Range] of [src/types/index.ts]. *)
Record Range : Type := mkRange {
  atOrAbove : option string;
  below : option string
}.

(** The loop of [compareVersions]: [i] is the loop index, [todo] the number
    of iterations left before [i] reaches the longer length. *)
Fixpoint compareVersions_loop (aParts bParts : list number) (i todo : nat) : Z :=
  match todo with
  | O => 0
  | S todo' =>
      let aVal := or0 (aParts !! i) in
      let bVal := or0 (bParts !! i) in
      if negb (aVal =? bVal) then aVal - bVal
      else compareVersions_loop aParts bParts (S i) todo'
  end.

Definition compareVersions (a b : string) : Z :=
  let aParts := map Number (split a) in
  let bParts := map Number (split b) in
  compareVersions_loop aParts bParts 0
    (Nat.max (length aParts) (length bParts)).

(** The callback [isVersionInRange] hands to [ranges.some]. *)
Definition inRange (normalizedVersion : string) (range : Range) : bool :=
  if (truthy (atOrAbove range) &&
      (compareVersions normalizedVersion (default "" (atOrAbove range)) <? 0))%bool
  then false
  else if (truthy (below range) &&
      (compareVersions normalizedVersion (default "" (below range)) >=? 0))%bool
  then false
  else true.

Definition isVersionInRange (version : string) (ranges : option (list Range)) : bool :=
  match ranges with
  | None => false
  | Some [] => false
  | Some rs =>
      let parts := map Number (split version) in
      let normalizedVersion := join (map toString (take 3 parts)) in
      existsb (inRange normalizedVersion) rs
  end.

(** [_parseVersion] of [src/scanner.js]: one number per version, the
    components weighted by 10000, 100 and 1.  [parts[0]] is used as it is,
    so a [NaN] there makes the whole sum [NaN]. *)
Definition _parseVersion (version : string) : number :=
  let parts := map Number (split version) in
  match parts !! 0%nat with
  | Some (Num p0) =>
      Num (p0 * 10000 + Z.to_N (or0 (parts !! 1%nat)) * 100
           + Z.to_N (or0 (parts !! 2%nat)))
  | _ => NaN
  end.

(** [x >= y] and [x < y] on numbers: false as soon as one side is [NaN]. *)
Definition num_ge (x y : number) : bool :=
  match x, y with
  | Num a, Num b => N.leb b a
  | _, _ => false
  end.

Definition num_lt (x y : number) : bool :=
  match x, y with
  | Num a, Num b => N.ltb a b
  | _, _ => false
  end.

(** The bound of a range as [_isVersionVulnerable] reads it:
    [range.b ? this._parseVersion(range.b) : null]. *)
Definition parsedBound (b : option string) : option number :=
  if truthy b then Some (_parseVersion (default "" b)) else None.

Definition truthy_bound (b : option number) : bool :=
  match b with
  | Some x => truthy_number x
  | None => false
  end.

Definition _isVersionVulnerable (version : string) (ranges : list Range) : bool :=
  existsb (fun range =>
    let versionNum := _parseVersion version in
    let lo := parsedBound (atOrAbove range) in
    let hi := parsedBound (below range) in
    if (truthy_bound lo && truthy_bound hi)%bool then
      (num_ge versionNum (default NaN lo) && num_lt versionNum (default NaN hi))%bool
    else if truthy_bound lo then num_ge versionNum (default NaN lo)
    else if truthy_bound hi then num_lt versionNum (default NaN hi)
    else false) ranges.

(** [normalizedVersion] as [isVersionInRange] computes it: the first three
    components, parsed and printed again. *)
Definition normalizedVersion (version : string) : string :=
  join (map toString (take 3 (map Number (split version)))).

(** A version string without a digit, such as [latest] or [*]. *)
Definition no_digit (v : string) : bool :=
  all_chars (fun c => negb (is_digit c)) v.

(** The comparison the specification words: versions as triples
    [(major, minor, patch)], a missing or non-numeric component read as 0,
    compared component by component. *)
Definition triple (s : string) : Z * Z * Z :=
  let parts := map Number (split s) in
  (or0 (parts !! 0%nat), or0 (parts !! 1%nat), or0 (parts !! 2%nat)).

Definition triple_lt (x y : Z * Z * Z) : bool :=
  let '(x1, x2, x3) := x in
  let '(y1, y2, y3) := y in
  (x1 <? y1) || ((x1 =? y1) && ((x2 <? y2) || ((x2 =? y2) && (x3 <? y3)))).

Definition triple_le (x y : Z * Z * Z) : bool := negb (triple_lt y x).

Definition spec_in_range (v a b : string) : bool :=
  triple_le (triple a) (triple v) && triple_lt (triple v) (triple b).

End Version.

(** ** The dependency scan and the severity filter of [src/scanner.ts] *)

Module Scan.
Import JS Version.

(** [Vulnerability], [DatabaseEntry] and [ScanResult] of
    [src/types/index.ts], with the fields the dependency scan and the filter
    read or write. *)
Record Vulnerability : Type := mkVulnerability {
  severity : string;
  summary : string;
  ranges : option (list Range);
  cwe : option (list string)
}.

Record PackageInfo : Type := mkPackageInfo {
  vulnerabilities : option (list Vulnerability)
}.

Record ScanResult : Type := mkScanResult {
  packageName : option string;
  version : option string;
  filePath : option string;
  lineNumber : option Z;
  vulnerability : Vulnerability
}.

(** [version.replace(/[^0-9.]/g, '')]. *)
Fixpoint cleanVersion (version : string) : string :=
  match version with
  | EmptyString => EmptyString
  | String c r =>
      if (is_digit c || Ascii.eqb c dot)%bool then String c (cleanVersion r)
      else cleanVersion r
  end.

Definition dependencyFinding (pkg version : string) (vuln : Vulnerability) : ScanResult :=
  {| packageName := Some pkg; version := Some version; filePath := None;
     lineNumber := None; vulnerability := vuln |}.

Section ScanDependencies.

(** What [scanProjectFiles] pushes for [node_modules/<pkg>]; nothing when
    the directory does not exist.  It only reads the file system. *)
Variable moduleFindings : string -> list ScanResult.

(** The in-memory database, [Map<string, any>]. *)
Variable vulnerabilityDB : gmap string PackageInfo.

(** The body of the [for ... of Object.entries(dependencies)] loop;
    [found] is the [vulnerabilities] array the caller passed in. *)
Definition scanDependency (found : list ScanResult) (dep : string * string) : list ScanResult :=
  let '(pkg, version) := dep in
  let clean := cleanVersion version in
  let found1 :=
    match vulnerabilityDB !! pkg with
    | Some vulnInfo =>
        match vulnerabilities vulnInfo with
        | Some vulns =>
            fold_left (fun acc vuln =>
              if isVersionInRange clean (ranges vuln)
              then (acc ++ [dependencyFinding pkg version vuln])%list
              else acc) vulns found
        | None => found
        end
    | None => found
    end in
  (found1 ++ moduleFindings pkg)%list.

(** [dependencies] is an object whose entries come in insertion order, or
    is missing from the manifest. *)
Definition scanDependencies (dependencies : option (list (string * string)))
    (found : list ScanResult) : list ScanResult :=
  match dependencies with
  | None => found
  | Some deps => fold_left scanDependency deps found
  end.

End ScanDependencies.

(** The records the database holds for a package. *)
Definition knownVulnerabilities (db : gmap string PackageInfo) (pkg : string)
    : list Vulnerability :=
  match db !! pkg with
  | Some vulnInfo => default [] (vulnerabilities vulnInfo)
  | None => []
  end.

Definition severityLevels : list string := ["low"; "medium"; "high"; "critical"].

(** [xs.indexOf(x)]: the first position of [x], or [-1]. *)
Fixpoint indexOf_from (xs : list string) (x : string) (i : Z) : Z :=
  match xs with
  | [] => -1
  | y :: r => if String.eqb y x then i else indexOf_from r x (i + 1)
  end.

Definition indexOf (xs : list string) (x : string) : Z := indexOf_from xs x 0.

(** The position of a finding's severity in [severityLevels]. *)
Definition severityIndex (r : ScanResult) : Z :=
  indexOf severityLevels (severity (vulnerability r)).

Definition filterBySeverity (minSeverity : string) (results : list ScanResult) : list ScanResult :=
  let minSeverityIndex := indexOf severityLevels minSeverity in
  List.filter (fun result =>
    let resultSeverityIndex := indexOf severityLevels (severity (vulnerability result)) in
    resultSeverityIndex >=? minSeverityIndex) results.

End Scan.

(** ** The syntax tree and the rule language *)

Module Ast.
Import JS.

(** The value of a [Literal] node.  A number is carried by its canonical
    decimal rendering, which is what [String] prints and what [===]
    compares on the numbers a source literal can denote.  [VOther] stands
    for a regular-expression or bigint literal: it is [===] to no value a
    JSON rule can hold, and [String] prints its text. *)
Inductive value : Type :=
  | VString (s : string)
  | VNumber (canon : string)
  | VBoolean (b : bool)
  | VNull
  | VOther (text : string).

(** The node kinds the analysis distinguishes; every other kind of the
    ESTree vocabulary is an [OtherNode] with its [type] and children.  In an
    [ArrayExpression] a hole is [None]. *)
Inductive node : Type :=
  | Identifier (name : string)
  | Literal (v : value)
  | TemplateLiteral (quasis : list string) (expressions : list node)
  | ThisExpression
  | MemberExpression (object property : node) (computed : bool)
  | CallExpression (callee : node) (arguments : list node)
  | AssignmentExpression (operator : string) (left right : node)
  | ObjectExpression (properties : list node)
  | Property (key val : node) (computed : bool)
  | ArrayExpression (elements : list (option node))
  | SpreadElement (argument : node)
  | VariableDeclarator (id : node) (init : option node)
  | OtherNode (type : string) (children : list node).

(** [node.type]. *)
Definition type_of (n : node) : string :=
  match n with
  | Identifier _ => "Identifier"
  | Literal _ => "Literal"
  | TemplateLiteral _ _ => "TemplateLiteral"
  | ThisExpression => "ThisExpression"
  | MemberExpression _ _ _ => "MemberExpression"
  | CallExpression _ _ => "CallExpression"
  | AssignmentExpression _ _ _ => "AssignmentExpression"
  | ObjectExpression _ => "ObjectExpression"
  | Property _ _ _ => "Property"
  | ArrayExpression _ => "ArrayExpression"
  | SpreadElement _ => "SpreadElement"
  | VariableDeclarator _ _ => "VariableDeclarator"
  | OtherNode t _ => t
  end.

(** A rule as the matcher reads it.  [CodePattern] and every variant of
    [ExpressionPattern] are objects parsed from JSON; the matcher reads
    their fields by name, whichever interface the object was written
    against, so one record with every field optional but [type] renders
    them all. *)
Inductive pat : Type := Pat {
  p_type : string;
  p_nodeType : option string;
  p_value : option value;
  p_regex : option string;
  p_name : option string;
  p_properties : option (list (string * pat));
  p_elements : option (list pat);
  p_object : option string;
  p_property : option string;
  p_operator : option string;
  p_left : option pat;
  p_right : option pat;
  p_arguments : option (list pat);
  p_pattern : option pat
}.

(** [a === b] on literal values. *)
Definition strict_eq (a b : value) : bool :=
  match a, b with
  | VString x, VString y => String.eqb x y
  | VNumber x, VNumber y => String.eqb x y
  | VBoolean x, VBoolean y => Bool.eqb x y
  | VNull, VNull => true
  | _, _ => false
  end.

(** [String(v)]. *)
Definition String_of (v : value) : string :=
  match v with
  | VString s => s
  | VNumber c => c
  | VBoolean true => "true"
  | VBoolean false => "false"
  | VNull => "null"
  | VOther t => t
  end.

(** Every regular-expression source a rule carries, at any depth. *)
Fixpoint regexes (p : pat) : list string :=
  match p with
  | Pat _ _ _ rg _ props els _ _ _ l r args pp =>
      (match rg with Some s => [s] | None => [] end ++
       match props with
       | Some kvs => flat_map (fun kv => match kv with (_, q) => regexes q end) kvs
       | None => []
       end ++
       match els with Some qs => flat_map regexes qs | None => [] end ++
       match l with Some q => regexes q | None => [] end ++
       match r with Some q => regexes q | None => [] end ++
       match args with Some qs => flat_map regexes qs | None => [] end ++
       match pp with Some q => regexes q | None => [] end)%list
  end.

End Ast.

(** ** The pattern matcher of [src/scanner.ts] *)

Module Matcher.
Import JS Ast.

Section Engine.

(** The host's regular-expression engine.  [regex_valid src] tells whether
    [new RegExp(src)] constructs; when it does not, the constructor throws
    a [SyntaxError].  [regex_test src s] is the answer of [.test(s)] on a
    constructed expression.  The matcher builds a fresh expression without
    flags for every test, so no [lastIndex] survives a call. *)
Variable regex_valid : string -> bool.
Variable regex_test : string -> string -> bool.

(** [new RegExp(src).test(s)]. *)
Definition RegExp_test (src s : string) : outcome bool :=
  if regex_valid src then Returns (regex_test src s) else Throws SyntaxError.

(** Every regular-expression source of the rule constructs. *)
Definition regex_ok (pattern : pat) : Prop :=
  forall src, In src (regexes pattern) -> regex_valid src = true.

Definition matchLiteralPattern (v : value) (pattern : pat) : outcome bool :=
  if String.eqb (p_type pattern) "Literal" then
    match p_value pattern with
    | Some pv => Returns (strict_eq v pv)
    | None =>
        if truthy (p_regex pattern)
        then RegExp_test (default "" (p_regex pattern)) (String_of v)
        else Returns true
    end
  else Returns false.

Definition matchTemplateLiteralPattern (quasis : list string) (pattern : pat) : outcome bool :=
  if negb (String.eqb (p_type pattern) "TemplateLiteral") then Returns false
  else if truthy (p_regex pattern) then
    let value := String.concat "" quasis in
    RegExp_test (default "" (p_regex pattern)) value
  else Returns true.

Definition matchIdentifierPattern (name : string) (pattern : pat) : outcome bool :=
  if String.eqb (p_type pattern) "Identifier" then
    if truthy (p_name pattern)
    then Returns (String.eqb name (default "" (p_name pattern)))
    else if truthy (p_regex pattern)
    then RegExp_test (default "" (p_regex pattern)) name
    else Returns true
  else Returns false.

(** [pattern.pattern && pattern.pattern.type === ty]. *)
Definition inner_of (ty : string) (pattern : pat) : option pat :=
  match p_pattern pattern with
  | Some inner => if String.eqb (p_type inner) ty then Some inner else None
  | None => None
  end.

Definition matchMemberExpression (object property : node) (pattern : pat) : bool :=
  if negb (String.eqb (p_type pattern) "MemberExpression") then false
  else
    match inner_of "MemberExpression" pattern with
    | Some inner =>
        let object_fails :=
          if truthy (p_object inner) then
            match object with
            | Identifier name => negb (String.eqb name (default "" (p_object inner)))
            | ThisExpression => negb (String.eqb (default "" (p_object inner)) "this")
            | _ => false
            end
          else false in
        if object_fails then false
        else
          let property_fails :=
            if truthy (p_property inner) then
              match property with
              | Identifier name => negb (String.eqb name (default "" (p_property inner)))
              | Literal (VString s) => negb (String.eqb s (default "" (p_property inner)))
              | _ => false
              end
            else false in
          negb property_fails
    | None => true
    end.

(** The composite matchers call back into [matchExpressionPattern]; they are
    written against the callee [recur] and closed below. *)
Section Composite.

Variable recur : node -> pat -> outcome bool.

(** The key of a property as [matchObjectPattern] computes it; [None] is
    [null]. *)
Definition key_of (key : node) : option string :=
  match key with
  | Identifier name => Some name
  | Literal v => Some (String_of v)
  | _ => None
  end.

Definition matchObjectPattern_with (properties : list node) (pattern : pat) : outcome bool :=
  if negb (String.eqb (p_type pattern) "ObjectExpression") then Returns false
  else
    match p_properties pattern with
    | Some patternProps =>
        some (fun prop =>
          match prop with
          | Property k v _ =>
              some (fun patternProp : string * pat =>
                let (pk, pv) := patternProp in
                match key_of k with
                | Some key => if String.eqb pk key then recur v pv else Returns false
                | None => Returns false
                end) patternProps
          | _ => Returns false
          end) properties
    | None => Returns true
    end.

(** [patterns.every((p, i) => elements[i] && recur(elements[i], p))]. *)
Fixpoint every_element (elements : list (option node)) (patterns : list pat) : outcome bool :=
  match patterns, elements with
  | [], _ => Returns true
  | _ :: _, [] => Returns false
  | p :: patterns', e :: elements' =>
      let* b := match e with
                | Some n => recur n p
                | None => Returns false
                end in
      if b then every_element elements' patterns' else Returns false
  end.

Definition matchArrayPattern_with (elements : list (option node)) (pattern : pat) : outcome bool :=
  if negb (String.eqb (p_type pattern) "ArrayExpression") then Returns false
  else
    match p_elements pattern with
    | Some patterns =>
        if negb (Nat.eqb (length patterns) (length elements)) then Returns false
        else every_element elements patterns
    | None => Returns true
    end.

Definition matchArgumentPattern_with (arg : node) (pattern : pat) : outcome bool :=
  match arg with
  | Literal v => matchLiteralPattern v pattern
  | TemplateLiteral quasis _ => matchTemplateLiteralPattern quasis pattern
  | Identifier name => matchIdentifierPattern name pattern
  | ObjectExpression properties => matchObjectPattern_with properties pattern
  | ArrayExpression elements => matchArrayPattern_with elements pattern
  | _ => Returns false
  end.

(** [patterns.every((p, i) => matchArgumentPattern(args[i], p))]; reading
    [args[i].type] past the end of [args] is a [TypeError]. *)
Fixpoint every_argument (args : list node) (patterns : list pat) : outcome bool :=
  match patterns, args with
  | [], _ => Returns true
  | _ :: _, [] => Throws TypeError
  | p :: patterns', a :: args' =>
      let* b := matchArgumentPattern_with a p in
      if b then every_argument args' patterns' else Returns false
  end.

Definition matchCallExpression_with (callee : node) (args : list node) (pattern : pat) : outcome bool :=
  if negb (String.eqb (p_type pattern) "CallExpression") then Returns false
  else
    let name_fails :=
      match inner_of "CallExpression" pattern, callee with
      | Some inner, Identifier name =>
          (truthy (p_name inner) && negb (String.eqb name (default "" (p_name inner))))%bool
      | _, _ => false
      end in
    if name_fails then Returns false
    else
      match inner_of "CallExpression" pattern with
      | Some inner =>
          match p_arguments inner with
          | Some patterns =>
              if negb (Nat.eqb (length args) (length patterns)) then Returns false
              else every_argument args patterns
          | None => Returns true
          end
      | None => Returns true
      end.

End Composite.

Fixpoint matchExpressionPattern (n : node) (pattern : pat) {struct n} : outcome bool :=
  match n with
  | Literal v => matchLiteralPattern v pattern
  | Identifier name => matchIdentifierPattern name pattern
  | MemberExpression object property _ =>
      Returns (matchMemberExpression object property pattern)
  | CallExpression callee args =>
      matchCallExpression_with matchExpressionPattern callee args pattern
  | ObjectExpression properties =>
      matchObjectPattern_with matchExpressionPattern properties pattern
  | ArrayExpression elements =>
      matchArrayPattern_with matchExpressionPattern elements pattern
  | _ => Returns false
  end.

(** Matching [n] returns against every rule whose sources construct. *)
Definition returns_on (n : node) : Prop :=
  forall pattern, regex_ok pattern -> returns (matchExpressionPattern n pattern).

Definition matchObjectPattern : list node -> pat -> outcome bool :=
  matchObjectPattern_with matchExpressionPattern.

Definition matchArrayPattern : list (option node) -> pat -> outcome bool :=
  matchArrayPattern_with matchExpressionPattern.

Definition matchArgumentPattern : node -> pat -> outcome bool :=
  matchArgumentPattern_with matchExpressionPattern.

Definition matchCallExpression : node -> list node -> pat -> outcome bool :=
  matchCallExpression_with matchExpressionPattern.

Definition matchAssignmentExpression (operator : string) (left right : node)
    (pattern : pat) : outcome bool :=
  if negb (String.eqb (p_type pattern) "AssignmentExpression") then Returns false
  else if (truthy (p_operator pattern) &&
           negb (String.eqb operator (default "" (p_operator pattern))))%bool
  then Returns false
  else
    let* leftMatches := match p_left pattern with
                        | Some q => matchExpressionPattern left q
                        | None => Returns true
                        end in
    if negb leftMatches then Returns false
    else
      let* rightMatches := match p_right pattern with
                           | Some q => matchExpressionPattern right q
                           | None => Returns true
                           end in
      if negb rightMatches then Returns false else Returns true.

Definition matchesPattern (n : node) (pattern : pat) : outcome bool :=
  if (truthy (p_nodeType pattern) &&
      negb (String.eqb (type_of n) (default "" (p_nodeType pattern))))%bool
  then Returns false
  else
    match n with
    | CallExpression callee args => matchCallExpression callee args pattern
    | MemberExpression object property _ =>
        Returns (matchMemberExpression object property pattern)
    | AssignmentExpression operator lhs rhs =>
        matchAssignmentExpression operator lhs rhs pattern
    | _ => Returns false
    end.

End Engine.

(** An engine for closed examples.  It agrees with ECMAScript on two
    families of sources: a run of ASCII letters and digits is a valid
    expression that tests for that run as a substring, and ["("] is
    rejected with a [SyntaxError] (an unterminated group).  It reports every
    other source as invalid; the examples use no other source. *)
Definition is_alnum (c : ascii) : bool :=
  let n := nat_of_ascii c in
  ((Nat.leb 48 n && Nat.leb n 57) || (Nat.leb 65 n && Nat.leb n 90) ||
   (Nat.leb 97 n && Nat.leb n 122))%bool.

Fixpoint includes (needle hay : string) : bool :=
  (String.prefix needle hay ||
   match hay with
   | EmptyString => false
   | String _ r => includes needle r
   end)%bool.

Definition plain_valid (src : string) : bool := all_chars is_alnum src.
Definition plain_test (src s : string) : bool := includes src s.

End Matcher.

(** ** The data-flow graph of [src/scanner.ts] *)

Module DataFlow.
Import JS Ast.

Inductive flowType : Type := assignment | declaration | call.

(** [DataFlow] of [src/types/index.ts]; the [node] field, which no query
    reads, is left out. *)
Record DataFlow : Type := mkDataFlow {
  type : flowType;
  source : option string;
  arguments : option (list string)
}.

Definition graph : Type := jsmap DataFlow.

Fixpoint getNodeId (n : node) : option string :=
  match n with
  | Identifier name => Some name
  | MemberExpression object property _ =>
      let obj := getNodeId object in
      let prop := getNodeId property in
      if (truthy obj && truthy prop)%bool
      then Some (default "" obj ++ "." ++ default "" prop)
      else None
  | _ => None
  end.

(** A static member chain [x1.x2. ... .xk] and the identifiers it is made
    of; [None] for every other shape. *)
Fixpoint static_path (n : node) : option (list string) :=
  match n with
  | Identifier name => Some [name]
  | MemberExpression object (Identifier name) false =>
      match static_path object with
      | Some names => Some (names ++ [name])%list
      | None => None
      end
  | _ => None
  end.

Definition trackAssignment (lhs rhs : node) (g : graph) : graph :=
  let targetId := getNodeId lhs in
  let sourceId := getNodeId rhs in
  if (truthy targetId && truthy sourceId)%bool
  then map_set g (default "" targetId) (mkDataFlow assignment sourceId None)
  else g.

Definition trackVariableDeclaration (id : node) (init : option node) (g : graph) : graph :=
  let targetId := getNodeId id in
  let sourceId := match init with
                  | Some i => getNodeId i
                  | None => None
                  end in
  if (truthy targetId && truthy sourceId)%bool
  then map_set g (default "" targetId) (mkDataFlow declaration sourceId None)
  else g.

(** [node.arguments.map(getNodeId).filter(arg => arg !== undefined)]. *)
Definition argumentIds (args : list node) : list string :=
  omap getNodeId args.

Definition trackFunctionCall (n callee : node) (args : list node) (g : graph) : graph :=
  let callId := getNodeId n in
  if truthy callId
  then map_set g (default "" callId)
         (mkDataFlow call (getNodeId callee) (Some (argumentIds args)))
  else g.

(** The [enter] callback of [buildDataFlowGraph]. *)
Definition enter (n : node) (g : graph) : graph :=
  match n with
  | AssignmentExpression _ lhs rhs => trackAssignment lhs rhs g
  | VariableDeclarator id init => trackVariableDeclaration id init g
  | CallExpression callee args => trackFunctionCall n callee args g
  | _ => g
  end.

(** The nodes of a tree in the order [traverse] enters them: a node before
    its children, the children in the order of their fields.  The quasis of
    a template literal are leaves of a kind [enter] ignores and are left
    out. *)
Fixpoint preorder (n : node) : list node :=
  n ::
  match n with
  | Identifier _ | Literal _ | ThisExpression => []
  | TemplateLiteral _ expressions => flat_map preorder expressions
  | MemberExpression object property _ => preorder object ++ preorder property
  | CallExpression callee args => preorder callee ++ flat_map preorder args
  | AssignmentExpression _ lhs rhs => preorder lhs ++ preorder rhs
  | ObjectExpression properties => flat_map preorder properties
  | Property k v _ => preorder k ++ preorder v
  | ArrayExpression elements =>
      flat_map (fun e => match e with
                         | Some x => preorder x
                         | None => []
                         end) elements
  | SpreadElement argument => preorder argument
  | VariableDeclarator id init =>
      preorder id ++ match init with
                     | Some i => preorder i
                     | None => []
                     end
  | OtherNode _ children => flat_map preorder children
  end%list.

(** [scanSourceFile] clears the graph before every file, so a file's graph is
    built from the empty one. *)
Definition buildDataFlowGraph (ast : node) : graph :=
  fold_left (fun g n => enter n g) (preorder ast) [].

(** [getDataFlowSources].  The source recurses with no visited set, so the
    rendering counts the depth of calls it may still open: [None] when
    [fuel] calls were not enough. *)
Fixpoint getDataFlowSources (fuel : nat) (g : graph) (flow : DataFlow) : option (list string) :=
  match fuel with
  | O => None
  | S fuel' =>
      if truthy (source flow) then
        let s := default "" (source flow) in
        match map_get g s with
        | Some sourceFlow =>
            match getDataFlowSources fuel' g sourceFlow with
            | Some more => Some (uniq (s :: more))
            | None => None
            end
        | None => Some (uniq [s])
        end
      else Some (uniq [])
  end.

(** [flow.source === nodeId || flow.arguments?.includes(nodeId)]. *)
Definition flows_from (nodeId : string) (flow : DataFlow) : bool :=
  (match source flow with
   | Some s => String.eqb s nodeId
   | None => false
   end ||
   match arguments flow with
   | Some args => existsb (String.eqb nodeId) args
   | None => false
   end)%bool.

(** The loop of [findDataFlowSinks] over the entries still to visit, with
    [recur] for the recursive call and [sinks] for the array built so
    far. *)
Fixpoint sinks_loop (recur : string -> option (list string)) (nodeId : string)
    (entries : list (string * DataFlow)) (sinks : list string) : option (list string) :=
  match entries with
  | [] => Some (uniq sinks)
  | (id, flow) :: rest =>
      if flows_from nodeId flow then
        match recur id with
        | Some more => sinks_loop recur nodeId rest (sinks ++ id :: more)%list
        | None => None
        end
      else sinks_loop recur nodeId rest sinks
  end.

Fixpoint findDataFlowSinks (fuel : nat) (g : graph) (nodeId : string) : option (list string) :=
  match fuel with
  | O => None
  | S fuel' => sinks_loop (findDataFlowSinks fuel' g) nodeId g []
  end.

(** [analyzeDataFlow]: [None] when the node has no id or no edge, otherwise
    the two queries; the outer [option] is the fuel's. *)
Definition analyzeDataFlow (fuel : nat) (g : graph) (n : node)
    : option (option (flowType * list string * list string)) :=
  match getNodeId n with
  | Some nodeId =>
      if truthy_string nodeId then
        match map_get g nodeId with
        | Some flow =>
            match getDataFlowSources fuel g flow, findDataFlowSinks fuel g nodeId with
            | Some sources, Some sinks => Some (Some (type flow, sources, sinks))
            | _, _ => None
            end
        | None => Some None
        end
      else Some None
  | None => Some None
  end.

End DataFlow.

(** ** The parallel scanner: [src/parallel/scanner.worker.ts] and
       [src/parallel/scanner.ts] *)

Module Parallel.
Import JS Scan.

(** [WorkerMessage], one constructor per [type]. *)
Inductive WorkerMessage : Type :=
  | result (data : list ScanResult)
  | progress (filePath : string)
  | error (data : exn) (filePath : option string).

(** [Scanner.scanSourceFile] of [src/scanner.ts].  [analyse] is the body of
    its [try] block: reading and parsing the file, building the graph,
    matching every rule and filtering; it throws when one of these does.
    The [catch] logs the exception and returns the empty list, so the method
    itself always returns. *)
Definition scanSourceFile (analyse : string -> outcome (list ScanResult))
    (filePath : string) : outcome (list ScanResult) :=
  match analyse filePath with
  | Returns found => Returns found
  | Throws _ => Returns []
  end.

Section Worker.

(** [scanner.scanSourceFile] as the worker calls it. *)
Variable scan : string -> outcome (list ScanResult).

(** One turn of the [for (const file of files)] loop of [run]: the state is
    the [results] array and the messages posted so far. *)
Definition run_file (st : list ScanResult * list WorkerMessage) (file : string)
    : list ScanResult * list WorkerMessage :=
  let '(results, posted) := st in
  match scan file with
  | Returns fileResults =>
      (if (0 <? length fileResults)%nat then results ++ fileResults else results,
       posted ++ [progress file])%list
  | Throws e => (results, posted ++ [error e (Some file)])%list
  end.

(** [run]: the messages a worker posts for its chunk, in order.
    [loadCustomRules] catches its own failures and the messages are plain
    data, so the outer [catch] of [run] is not entered. *)
Definition run (files : list string) : list WorkerMessage :=
  let '(results, posted) := fold_left run_file files ([], []) in
  (posted ++ [result results])%list.

End Worker.

(** What the main thread observes of its workers, in the order its event
    loop handles it. *)
Inductive event : Type :=
  | on_message (workerId : nat) (message : WorkerMessage)
  | on_error (workerId : nat) (e : exn)
  | on_exit (workerId : nat) (code : Z).

Inductive rejection : Type :=
  | WorkerError (e : exn)
  | WorkerStopped (code : Z).

(** The promise [createWorker] returns. *)
Inductive promise : Type :=
  | Pending
  | Resolved
  | Rejected (why : rejection).

(** The main thread between two events: per worker the [results] array of
    its [createWorker] call and the promise, which resolves to that very
    array; the [completedFiles] counter; and the first rejection, which is
    the one [Promise.all] passes on. *)
Record pool : Type := mkPool {
  buffers : list (list ScanResult);
  promises : list promise;
  completedFiles : nat;
  failure : option rejection
}.

(** [resolve] and [reject] act on a pending promise only. *)
Definition settle (w : nat) (to : promise) (p : pool) : pool :=
  match promises p !! w with
  | Some Pending =>
      mkPool (buffers p) (<[w := to]> (promises p)) (completedFiles p)
        match failure p, to with
        | None, Rejected why => Some why
        | old, _ => old
        end
  | _ => p
  end.

(** The handlers [createWorker] installs. *)
Definition handle (p : pool) (ev : event) : pool :=
  match ev with
  | on_message w (result data) =>
      mkPool (alter (fun results => results ++ data)%list w (buffers p))
        (promises p) (completedFiles p) (failure p)
  | on_message _ (progress _) =>
      mkPool (buffers p) (promises p) (S (completedFiles p)) (failure p)
  | on_message _ (error _ _) => p
  | on_error w e => settle w (Rejected (WorkerError e)) p
  | on_exit w code =>
      settle w (if negb (code =? 0) then Rejected (WorkerStopped code)
                else Resolved) p
  end.

(** [Math.ceil(files.length / numWorkers)] and the chunks cut with
    [files.slice]. *)
Definition filesPerWorker (files : list string) (numWorkers : nat) : nat :=
  (length files + numWorkers - 1) / numWorkers.

Definition workerFiles (files : list string) (numWorkers : nat) : list (list string) :=
  let per := filesPerWorker files numWorkers in
  map (fun i => take per (drop (i * per) files)) (seq 0 numWorkers).

Definition is_message (ev : event) : bool :=
  match ev with
  | on_message _ _ => true
  | _ => false
  end.

(** What a file contributes to the [results] of its worker, and the message
    the worker posts for it, given the worker's [scan]. *)
Definition file_results (scan : string -> outcome (list ScanResult)) (file : string)
    : list ScanResult :=
  match scan file with
  | Returns fileResults => fileResults
  | Throws _ => []
  end.

Definition file_message (scan : string -> outcome (list ScanResult)) (file : string)
    : WorkerMessage :=
  match scan file with
  | Returns _ => progress file
  | Throws e => error e (Some file)
  end.

Definition is_resolved (pr : promise) : bool :=
  match pr with
  | Resolved => true
  | _ => false
  end.

(** The end of [scanInParallel]. *)
Inductive scanOutcome : Type :=
  | scanResolved (results : list ScanResult)
  | scanRejected (why : rejection)
  | scanPending.

(** [scanInParallel] on the events [trace]: [Promise.all] rejects with the
    first rejection and otherwise resolves, once every worker has, with the
    workers' results in the order of the workers. *)
Definition scanInParallel (numWorkers : nat) (trace : list event) : scanOutcome :=
  let start :=
    mkPool (replicate numWorkers []) (replicate numWorkers Pending) 0 None in
  let final := fold_left handle trace start in
  match failure final with
  | Some why => scanRejected why
  | None =>
      if forallb is_resolved (promises final)
      then scanResolved (concat (buffers final))
      else scanPending
  end.

End Parallel.

(** ** The vulnerability cache: [Cache] and [VulnerabilityCache] *)

Module Cache.
Import JS Scan.

(** [DatabaseEntry]: an object keyed by package names. *)
Abbreviation DatabaseEntry := (gmap string PackageInfo).

Record CacheEntry : Type := mkCacheEntry {
  timestamp : Z;
  etag : option string;
  data : DatabaseEntry
}.

(** The cache directory: the entry stored under a key.  The file of a key
    is named by the key's SHA-256; distinct keys are taken to name distinct
    files, and reads and writes to succeed. *)
Abbreviation store := (gmap string CacheEntry).

Section WithTtl.

Variable ttl : Z.

(** [Cache.get] at time [now]: an expired entry is unlinked. *)
Definition get (now : Z) (key : string) (files : store) : option CacheEntry * store :=
  match files !! key with
  | None => (None, files)
  | Some entry =>
      if now - timestamp entry >? ttl then (None, delete key files)
      else (Some entry, files)
  end.

(** [Cache.set] at time [now]. *)
Definition set (now : Z) (key : string) (d : DatabaseEntry) (tag : option string)
    (files : store) : store :=
  <[key := mkCacheEntry now tag d]> files.

(** The names every object inherits from [Object.prototype]. *)
Definition Object_prototype : list string :=
  ["constructor"; "__defineGetter__"; "__defineSetter__"; "hasOwnProperty";
   "__lookupGetter__"; "__lookupSetter__"; "isPrototypeOf";
   "propertyIsEnumerable"; "toString"; "valueOf"; "__proto__";
   "toLocaleString"].

(** [vulnerabilities.findIndex(v => v.summary === s)], [None] for [-1]. *)
Fixpoint findIndex (s : string) (vs : list Vulnerability) : option nat :=
  match vs with
  | [] => None
  | v :: r => if String.eqb (summary v) s then Some O
              else option_map S (findIndex s r)
  end.

(** The update of the parsed database.  [db[packageName]] finds an own entry,
    or else a member of [Object.prototype], which is truthy and has no
    [vulnerabilities], so the call on it throws. *)
Definition updateDatabase (db : DatabaseEntry) (packageName : string)
    (vulnerability : Vulnerability) : outcome DatabaseEntry :=
  let found : outcome (DatabaseEntry * list Vulnerability) :=
    match db !! packageName with
    | Some info =>
        match vulnerabilities info with
        | Some vs => Returns (db, vs)
        | None => Throws TypeError
        end
    | None =>
        if existsb (String.eqb packageName) Object_prototype then Throws TypeError
        else Returns (<[packageName := mkPackageInfo (Some [])]> db, [])
    end in
  let* dv := found in
  let '(db1, vs) := dv in
  let vs' := match findIndex (summary vulnerability) vs with
             | Some index => <[index := vulnerability]> vs
             | None => (vs ++ [vulnerability])%list
             end in
  Returns (<[packageName := mkPackageInfo (Some vs')]> db1).

(** [VulnerabilityCache.updateVulnerability]; [read] and [written] are the
    clock at the [get] and at the [set]. *)
Definition updateVulnerability (read written : Z) (url packageName : string)
    (vulnerability : Vulnerability) (files : store) : outcome unit * store :=
  let '(cached, files1) := get read url files in
  match cached with
  | Some entry =>
      match updateDatabase (data entry) packageName vulnerability with
      | Returns db => (Returns tt, set written url db (etag entry) files1)
      | Throws e => (Throws e, files1)
      end
  | None => (Returns tt, files1)
  end.

End WithTtl.

(** [new] is [old] with at most one record changed for [v]: nothing, [v]
    appended, or [v] in the place of a record with [v]'s summary. *)
Definition one_record_updated (v : Vulnerability) (old new : list Vulnerability) : Prop :=
  new = old \/ new = (old ++ [v])%list \/
  exists i w, old !! i = Some w /\ summary w = summary v /\ new = <[i := v]> old.

End Cache.

(** ** Inputs for the closed examples *)

Module Samples.
Import JS Version Scan Ast DataFlow Parallel Cache.

(** A record with the single range [below 1.9.0]. *)
Definition jquery_xss : Vulnerability :=
  mkVulnerability "medium" "XSS in jQuery" (Some [mkRange None (Some "1.9.0")]) None.

Definition jquery_db : gmap string PackageInfo :=
  {[ "jquery" := mkPackageInfo (Some [jquery_xss]) ]}.

(** The file [a = a;]. *)
Definition self_assignment : node :=
  OtherNode "Program"
    [OtherNode "ExpressionStatement"
       [AssignmentExpression "=" (Identifier "a") (Identifier "a")]].

(** The edge [a = a;] leaves in the graph. *)
Definition a_from_a : DataFlow := mkDataFlow assignment (Some "a") None.

(** The file [b = c; a = b;]. *)
Definition two_assignments : node :=
  OtherNode "Program"
    [OtherNode "ExpressionStatement"
       [AssignmentExpression "=" (Identifier "b") (Identifier "c")];
     OtherNode "ExpressionStatement"
       [AssignmentExpression "=" (Identifier "a") (Identifier "b")]].

(** The expression [a.b.c]. *)
Definition a_b_c : node :=
  MemberExpression (MemberExpression (Identifier "a") (Identifier "b") false)
    (Identifier "c") false.

(** The pattern [{type: 'Literal', value: n}] and [{type: 'Literal', regex}]. *)
Definition literal_is (n : string) : pat :=
  Pat "Literal" None (Some (VNumber n)) None None None None None None None None
    None None None.

Definition literal_like (src : string) : pat :=
  Pat "Literal" None None (Some src) None None None None None None None None
    None None.

(** The rule for a call of [eval] with one literal argument that matches
    [src]. *)
Definition eval_rule (src : string) : pat :=
  Pat "CallExpression" None None None None None None None None None None None
    None
    (Some (Pat "CallExpression" None None None (Some "eval") None None None
             None None None None (Some [literal_like src]) None)).

(** The call [eval("x")]. *)
Definition eval_x : node :=
  CallExpression (Identifier "eval") [Literal (VString "x")].

(** The properties of [{a: 1, b: 2}] and the pattern requiring
    [{a: 1, c: 3}]. *)
Definition a1_b2 : list node :=
  [Property (Identifier "a") (Literal (VNumber "1")) false;
   Property (Identifier "b") (Literal (VNumber "2")) false].

Definition a1_c3_pairs : list (string * pat) :=
  [("a", literal_is "1"); ("c", literal_is "3")].

Definition a1_c3 : pat :=
  Pat "ObjectExpression" None None None None (Some a1_c3_pairs) None None None
    None None None None None.


Definition one_two_patterns : list pat := [literal_is "1"; literal_is "2"].

Definition one_two_pattern : pat :=
  Pat "ArrayExpression" None None None None None (Some one_two_patterns) None
    None None None None None None.

(** A finding in [good.js], and an analysis under which [bad.js] does not
    parse. *)
Definition good_finding : ScanResult :=
  {| packageName := None; version := None; filePath := Some "good.js";
     lineNumber := Some 1;
     vulnerability := mkVulnerability "high" "Use of eval" (Some []) None |}.

Definition bad_then_good (filePath : string) : outcome (list ScanResult) :=
  if String.eqb filePath "bad.js" then Throws SyntaxError
  else Returns [good_finding].

(** A cache directory with one entry, written at time 0. *)
Definition db_url : string := "https://example.org/db.json".

Definition one_entry : store :=
  {[ db_url := mkCacheEntry 0 (Some "v1") jquery_db ]}.

End Samples.

(** ** The manifest scan of [src/scanner.ts] and the domain on which the
       weighted sum of [src/scanner.js] orders versions *)

Module Manifest.
Import JS Version Scan.



(** A string of digits and dots. *)
Definition digits_and_dots (s : string) : bool :=
  all_chars (fun c => (is_digit c || Ascii.eqb c dot)%bool) s.

(** The two maps [scanPackageJson] reads from a parsed manifest. *)
Record PackageJson : Type := mkPackageJson {
  dependencies : option (list (string * string));
  devDependencies : option (list (string * string))
}.

Section ScanPackageJson.

Variable moduleFindings : string -> list ScanResult.
Variable vulnerabilityDB : gmap string PackageInfo.
Variable ignoreDevDependencies : bool.
Variable minSeverity : string.

(** What one dependency adds to the findings. *)
Definition contribution (dep : string * string) : list ScanResult :=
  scanDependency moduleFindings vulnerabilityDB [] dep.

(** [scanPackageJson]; [manifest] is the outcome of reading and parsing the
    file, and the [catch] turns a failure into the empty list. *)
Definition scanPackageJson (manifest : outcome PackageJson) : list ScanResult :=
  match manifest with
  | Throws _ => []
  | Returns packageJson =>
      let found :=
        scanDependencies moduleFindings vulnerabilityDB (dependencies packageJson) [] in
      let found :=
        if (negb ignoreDevDependencies &&
            bool_decide (is_Some (devDependencies packageJson)))%bool
        then scanDependencies moduleFindings vulnerabilityDB
               (devDependencies packageJson) found
        else found in
      filterBySeverity minSeverity found
  end.

End ScanPackageJson.

End Manifest.

(** ** What the graph holds and when the source query ends *)

Module Flow.
Import JS Ast DataFlow.

(** An edge as the two trackers that can fire record it: a non-empty key,
    a non-empty source, no argument list, and a type other than [call]. *)
Definition plain_edge (e : string * DataFlow) : Prop :=
  truthy_string e.1 = true /\ type e.2 <> call /\
  truthy (source e.2) = true /\ arguments e.2 = None.

(** [ends g flow n]: following the sources from [flow] leaves the graph
    after [n] edges, [flow] included. *)
Inductive ends (g : graph) : DataFlow -> nat -> Prop :=
  | ends_no_source flow :
      truthy (source flow) = false -> ends g flow 1
  | ends_outside flow :
      truthy (source flow) = true ->
      map_get g (default "" (source flow)) = None -> ends g flow 1
  | ends_step flow next n :
      truthy (source flow) = true ->
      map_get g (default "" (source flow)) = Some next ->
      ends g next n -> ends g flow (S n).

End Flow.

(** ** What a worker has posted: the reading of [scanInParallel]'s result *)

Module Pool.
Import JS Scan Parallel.

(** The findings an event carries for worker [w]: the [data] of a [result]
    message of that worker, and nothing otherwise. *)
Definition posted (w : nat) (ev : event) : list ScanResult :=
  match ev with
  | on_message w' (result data) => if Nat.eqb w' w then data else []
  | _ => []
  end.

Definition posted_results (w : nat) (trace : list event) : list ScanResult :=
  flat_map (posted w) trace.

Definition worker_of (ev : event) : nat :=
  match ev with
  | on_message w _ | on_error w _ | on_exit w _ => w
  end.

(** The events of worker [w], in the order of the trace. *)
Definition events_of (w : nat) (trace : list event) : list event :=
  List.filter (fun ev => Nat.eqb (worker_of ev) w) trace.

(** What the handlers pass to [reject] on an event, if anything. *)
Definition rejection_of (ev : event) : option rejection :=
  match ev with
  | on_message _ _ => None
  | on_error _ e => Some (WorkerError e)
  | on_exit _ code => if negb (code =? 0) then Some (WorkerStopped code) else None
  end.

(** An event on which nothing is rejected: a message or an exit with
    code 0. *)
Definition benign (ev : event) : bool :=
  match rejection_of ev with
  | None => true
  | Some _ => false
  end.

(** The events worker [w] produces when it runs [run] on [chunk] and exits
    with code 0. *)
Definition clean_run (scan : string -> outcome (list ScanResult)) (w : nat)
    (chunk : list string) : list event :=
  (map (on_message w) (run scan chunk) ++ [on_exit w 0])%list.

End Pool.

(** ** The remaining methods of [Cache] and [VulnerabilityCache] *)

Module VulnerabilityCache.
Import JS Scan Cache.

(** [Cache.has]: the file of the key exists, whatever its age. *)
Definition has (key : string) (files : store) : bool :=
  bool_decide (is_Some (files !! key)).

(** [getVulnerabilities]: [cached?.data || null]; the data is an object and
    so truthy. *)
Definition getVulnerabilities (ttl now : Z) (url : string) (files : store)
    : option DatabaseEntry * store :=
  let '(cached, files1) := get ttl now url files in
  (data <$> cached, files1).

(** [setVulnerabilities]. *)
Definition setVulnerabilities (now : Z) (url : string) (d : DatabaseEntry)
    (tag : option string) (files : store) : store :=
  set now url d tag files.

End VulnerabilityCache.

(** ** The token ids of [VulnerabilityModel] *)

Module VulnerabilityModel.

(** The conversion to a signed 32-bit integer that the bit operators apply
    to their operands and to their result. *)
Definition ToInt32 (x : Z) : Z := (x + 2 ^ 31) mod 2 ^ 32 - 2 ^ 31.

(** A token is a string, here the list of its UTF-16 code units, which is
    what [charCodeAt] reads. *)
Definition token : Type := list Z.

(** One turn of the loop of [hashString]:
    [hash = ((hash << 5) - hash) + str.charCodeAt(i); hash = hash & hash]. *)
Definition hash_step (hash code : Z) : Z :=
  let hash1 := ToInt32 (Z.shiftl (ToInt32 hash) 5) - hash + code in
  ToInt32 (Z.land (ToInt32 hash1) (ToInt32 hash1)).

Definition hashString (str : token) : Z := fold_left hash_step str 0.

(** [Math.abs(this.hashString(token) % 10000)]; [%] takes the sign of the
    dividend. *)
Definition tokenToId (t : token) : Z := Z.abs (Z.rem (hashString t) 10000).

(** The token ['[PAD]']. *)
Definition PAD : token := [91; 80; 65; 68; 93].

(** The tokens [embed] feeds to the model: [tokens.slice(0, maxTokenLength)],
    then ['[PAD]'] pushed until the length is [maxTokenLength]. *)
Definition paddedTokens (maxTokenLength : nat) (tokens : list token) : list token :=
  let sliced := take maxTokenLength tokens in
  sliced ++ replicate (maxTokenLength - length sliced) PAD.

(** The row of the input tensor. *)
Definition inputIds (maxTokenLength : nat) (tokens : list token) : list Z :=
  map tokenToId (paddedTokens maxTokenLength tokens).

(** The polynomial hash in base 31, before any wrap-around. *)
Definition polynomial (str : token) : Z := fold_left (fun h c => 31 * h + c) str 0.

End VulnerabilityModel.

(** ** The walk over a project of [src/scanner.ts] *)

Module Project.
Import JS Scan.

(** What [readdir] lists: a file, a directory with its own listing, or a
    directory whose listing fails. *)
Inductive entry : Type :=
  | File (name : string)
  | Directory (name : string) (entries : list entry)
  | Unreadable (name : string).

Definition name_of (e : entry) : string :=
  match e with
  | File name | Directory name _ | Unreadable name => name
  end.

Definition skipDirs : list string :=
  ["node_modules"; "test"; "tests"; "dist"; "build"; "coverage"; ".git"].

Definition shouldScanDirectory (name : string) : bool :=
  negb (existsb (String.eqb name) skipDirs).

(** The letters [A] to [Z] fold to [a] to [z] under the [i] flag; no other
    character folds to a letter of the two patterns. *)
Definition fold_case (c : ascii) : ascii :=
  let n := nat_of_ascii c in
  if (Nat.leb 65 n && Nat.leb n 90)%bool then ascii_of_nat (n + 32) else c.

Fixpoint fold_cases (s : string) : string :=
  match s with
  | EmptyString => EmptyString
  | String c r => String (fold_case c) (fold_cases r)
  end.

Fixpoint endsWith (suffix s : string) : bool :=
  (String.eqb s suffix ||
   match s with
   | EmptyString => false
   | String _ r => endsWith suffix r
   end)%bool.

(** [/\.(js|jsx|ts|tsx)$/i.test(name)]. *)
Definition isJavaScriptSourceFile (name : string) : bool :=
  existsb (fun extension => endsWith extension (fold_cases name))
    [".js"; ".jsx"; ".ts"; ".tsx"].

(** [/^package\.json$/i.test(name)]. *)
Definition isPackageJsonFile (name : string) : bool :=
  String.eqb (fold_cases name) "package.json".

Section Walk.

(** [path.join] on a directory and a name. *)
Variable join : string -> string -> string.

(** [scanPackageJson] and [scanSourceFile] on a path; both catch their own
    failures and return a list. *)
Variable scanPackageJson : string -> list ScanResult.
Variable scanSourceFile : string -> list ScanResult.

(** One turn of the loop of [scanProjectFiles] in the directory [dirPath];
    the recursive call is on the listing of a sub-directory, and a listing
    that fails is caught there and adds nothing. *)
Fixpoint scanProjectFiles_entry (dirPath : string) (e : entry)
    (vulnerabilities : list ScanResult) : list ScanResult :=
  match e with
  | Directory name entries =>
      if shouldScanDirectory name then
        fold_left (fun found e' => scanProjectFiles_entry (join dirPath name) e' found)
          entries vulnerabilities
      else vulnerabilities
  | Unreadable name => vulnerabilities
  | File name =>
      if isPackageJsonFile name then
        (vulnerabilities ++ scanPackageJson (join dirPath name))%list
      else if isJavaScriptSourceFile name then
        (vulnerabilities ++ scanSourceFile (join dirPath name))%list
      else vulnerabilities
  end.

Definition scanProjectFiles (dirPath : string) (entries : list entry)
    (vulnerabilities : list ScanResult) : list ScanResult :=
  fold_left (fun found e => scanProjectFiles_entry dirPath e found)
    entries vulnerabilities.

(** The same for [collectSourceFiles]. *)
Fixpoint collectSourceFiles_entry (dirPath : string) (e : entry)
    (files : list string) : list string :=
  match e with
  | Directory name entries =>
      if shouldScanDirectory name then
        fold_left (fun found e' => collectSourceFiles_entry (join dirPath name) e' found)
          entries files
      else files
  | Unreadable name => files
  | File name =>
      if isJavaScriptSourceFile name then (files ++ [join dirPath name])%list
      else files
  end.

Definition collectSourceFiles (dirPath : string) (entries : list entry)
    (files : list string) : list string :=
  fold_left (fun found e => collectSourceFiles_entry dirPath e found) entries files.

Variable minSeverity : string.

(** [scanProject] on a project directory with the listing [entries];
    [fs.existsSync] of the manifest's path holds when the listing has the
    name [package.json]. *)
Definition scanProject (projectPath : string) (entries : list entry)
    : list ScanResult :=
  let packageJsonPath := join projectPath "package.json" in
  let vulnerabilities :=
    if existsb (fun e => String.eqb (name_of e) "package.json") entries
    then scanPackageJson packageJsonPath
    else [] in
  filterBySeverity minSeverity (scanProjectFiles projectPath entries vulnerabilities).

(** [scanProjectInParallel], given what [scanInParallel] resolves to on the
    collected files. *)
Definition scanProjectInParallel (projectPath : string) (entries : list entry)
    (scanInParallel : list string -> list ScanResult) : list ScanResult :=
  let packageJsonPath := join projectPath "package.json" in
  let vulnerabilities :=
    if existsb (fun e => String.eqb (name_of e) "package.json") entries
    then scanPackageJson packageJsonPath
    else [] in
  let allFiles := collectSourceFiles projectPath entries [] in
  filterBySeverity minSeverity
    (if (0 <? length allFiles)%nat
     then (vulnerabilities ++ scanInParallel allFiles)%list
     else vulnerabilities).

End Walk.

End Project.

(** ** Further inputs for closed examples *)

Module Cases.
Import JS Version Scan Ast DataFlow Parallel Cache Samples Pool.

(** The rule for any call of [eval], with no argument list. *)
Definition eval_any : pat :=
  Pat "CallExpression" None None None None None None None None None None None
    None
    (Some (Pat "CallExpression" None None None (Some "eval") None None None
             None None None None None None)).

(** The call [window.eval("x")]. *)
Definition window_eval_x : node :=
  CallExpression
    (MemberExpression (Identifier "window") (Identifier "eval") false)
    [Literal (VString "x")].

(** The sub-pattern [{type: 'CallExpression', name: 'eval', arguments: []}]
    as [ExpressionPattern] types it, for use inside another pattern. *)
Definition nested_eval : pat :=
  Pat "CallExpression" None None None (Some "eval") None None None None None
    None None (Some []) None.

(** The elements of [[1, , ]]: a literal and a hole. *)
Definition one_hole : list (option node) :=
  [Some (Literal (VNumber "1")); None].

(** The graph of [b = c;]. *)
Definition b_from_c : graph := [("b", mkDataFlow assignment (Some "c") None)].

(** A database that holds one record for [jquery] under the summary of
    [jquery_xss], with another severity. *)
Definition jquery_old : Vulnerability :=
  mkVulnerability "low" "XSS in jQuery" None None.

Definition jquery_old_db : gmap string PackageInfo :=
  {[ "jquery" := mkPackageInfo (Some [jquery_old]) ]}.

(** Two workers, one file each, their events interleaved. *)
Definition interleaved : list event :=
  [on_message 1 (progress "good.js"); on_message 0 (progress "bad.js");
   on_message 1 (result [good_finding]); on_message 0 (result []);
   on_exit 1 0; on_exit 0 0].

End Cases.

(** * Part II: the facts *)

(** ** Version ranges *)

Section VersionFacts.
Import JS Version Scan Samples.

Lemma split_nonempty (s : string) : split s <> [].
Proof.
  destruct s as [|c r]; simpl; [discriminate|].
  destruct (Ascii.eqb c dot); [discriminate|].
  destruct (split r); discriminate.
Qed.

(** Once both arrays are exhausted the loop of [compareVersions] only sees
    [0] against [0]. *)
Lemma compareVersions_loop_past (aParts bParts : list number) (todo i : nat) :
  (length aParts <= i)%nat -> (length bParts <= i)%nat ->
  compareVersions_loop aParts bParts i todo = 0.
Proof.
  revert i; induction todo as [|todo IH]; intros i Ha Hb; simpl; [reflexivity|].
  rewrite (lookup_ge_None_2 aParts i Ha), (lookup_ge_None_2 bParts i Hb).
  simpl. apply IH; lia.
Qed.

(** The loop reads [aParts] through [or0] only. *)
Lemma compareVersions_loop_ext (aParts aParts' bParts : list number) (todo i : nat) :
  (forall j, or0 (aParts !! j) = or0 (aParts' !! j)) ->
  compareVersions_loop aParts bParts i todo =
  compareVersions_loop aParts' bParts i todo.
Proof.
  intros Hext; revert i; induction todo as [|todo IH]; intros i; simpl;
    [reflexivity|].
  rewrite Hext, IH. reflexivity.
Qed.

(** Running the loop for more turns than the longer array has changes
    nothing. *)
Lemma compareVersions_loop_enough (aParts bParts : list number) (todo i : nat) :
  (length aParts <= i + todo)%nat -> (length bParts <= i + todo)%nat ->
  compareVersions_loop aParts bParts i todo =
  compareVersions_loop aParts bParts i
    (Nat.max (length aParts) (length bParts) - i).
Proof.
  revert i; induction todo as [|todo IH]; intros i Ha Hb.
  - replace (Nat.max (length aParts) (length bParts) - i)%nat with O by lia.
    reflexivity.
  - destruct (Nat.max (length aParts) (length bParts) - i)%nat as [|k] eqn:Hk.
    + simpl. rewrite compareVersions_loop_past by lia.
      rewrite (lookup_ge_None_2 aParts i), (lookup_ge_None_2 bParts i) by lia.
      reflexivity.
    + simpl. rewrite IH by lia.
      replace (Nat.max (length aParts) (length bParts) - S i)%nat with k by lia.
      reflexivity.
Qed.

(** A version all of whose components read as [0] compares like [0.0.0],
    whatever its length. *)
Lemma compareVersions_zero (a b : string) :
  (forall j, or0 (map Number (split a) !! j) = 0) ->
  compareVersions a b = compareVersions "0.0.0" b.
Proof.
  intros Hz. unfold compareVersions.
  set (bParts := map Number (split b)).
  set (aParts := map Number (split a)).
  set (zParts := map Number (split "0.0.0")).
  assert (Hext : forall j, or0 (aParts !! j) = or0 (@nil number !! j)).
  { intros j. rewrite Hz. reflexivity. }
  assert (Hext0 : forall j, or0 (zParts !! j) = or0 (@nil number !! j)).
  { intros [|[|[|j]]]; reflexivity. }
  rewrite (compareVersions_loop_ext aParts [] bParts _ 0 Hext).
  rewrite (compareVersions_loop_ext zParts [] bParts _ 0 Hext0).
  rewrite (compareVersions_loop_enough [] bParts (Nat.max (length aParts) _) 0)
    by (simpl; lia).
  rewrite (compareVersions_loop_enough [] bParts (Nat.max (length zParts) _) 0)
    by (simpl; lia).
  reflexivity.
Qed.

Lemma split_cleanVersion_no_digit (v : string) :
  no_digit v = true -> Forall (fun s => s = "") (split (cleanVersion v)).
Proof.
  induction v as [|c r IH]; simpl; intros H.
  - repeat constructor.
  - apply andb_true_iff in H as [Hc Hr].
    apply negb_true_iff in Hc. rewrite Hc. simpl.
    destruct (Ascii.eqb c dot) eqn:Hdot.
    + simpl. rewrite Hdot. constructor; auto.
    + auto.
Qed.

Lemma normalizedVersion_no_digit (v : string) :
  no_digit v = true ->
  normalizedVersion (cleanVersion v) = "0" \/
  normalizedVersion (cleanVersion v) = "0.0" \/
  normalizedVersion (cleanVersion v) = "0.0.0".
Proof.
  intros H. unfold normalizedVersion.
  pose proof (split_cleanVersion_no_digit v H) as Hall.
  pose proof (split_nonempty (cleanVersion v)) as Hne.
  destruct (split (cleanVersion v)) as [|s1 [|s2 [|s3 rest]]]; [congruence|..].
  - inversion Hall; subst. left; reflexivity.
  - inversion Hall as [|? ? ? Hall2]; subst. inversion Hall2; subst.
    right; left; reflexivity.
  - inversion Hall as [|? ? ? Hall2]; subst.
    inversion Hall2 as [|? ? ? Hall3]; subst. inversion Hall3; subst.
    right; right; reflexivity.
Qed.

Lemma existsb_pointwise {A} (f g : A -> bool) (xs : list A) :
  (forall x, f x = g x) -> existsb f xs = existsb g xs.
Proof.
  intros H; induction xs as [|x xs IH]; simpl; [reflexivity|].
  rewrite H, IH. reflexivity.
Qed.

Lemma isVersionInRange_normalized (v w : string) (ranges : option (list Range)) :
  (forall b, compareVersions (normalizedVersion v) b =
             compareVersions (normalizedVersion w) b) ->
  isVersionInRange v ranges = isVersionInRange w ranges.
Proof.
  intros Hcmp. unfold isVersionInRange.
  destruct ranges as [[|r rs]|]; try reflexivity.
  fold (normalizedVersion v). fold (normalizedVersion w).
  apply existsb_pointwise. intros x. unfold inRange. rewrite !Hcmp. reflexivity.
Qed.

(** A version without a digit is matched exactly as [0.0.0] is. *)
Lemma isVersionInRange_no_digit (v : string) (ranges : option (list Range)) :
  no_digit v = true ->
  isVersionInRange (cleanVersion v) ranges = isVersionInRange "0.0.0" ranges.
Proof.
  intros H. apply isVersionInRange_normalized. intros b.
  change (normalizedVersion "0.0.0") with "0.0.0".
  destruct (normalizedVersion_no_digit v H) as [-> | [-> | ->]];
    try reflexivity;
    apply compareVersions_zero; intros [|[|[|j]]]; reflexivity.
Qed.

Lemma fold_left_push {A B} (keep : A -> bool) (f : A -> B) (xs : list A) (acc : list B) :
  fold_left (fun acc x => if keep x then (acc ++ [f x])%list else acc) xs acc =
  (acc ++ map f (List.filter keep xs))%list.
Proof.
  revert acc; induction xs as [|x xs IH]; intros acc; simpl.
  - rewrite app_nil_r. reflexivity.
  - rewrite IH. destruct (keep x); simpl; [|reflexivity].
    rewrite <- app_assoc. reflexivity.
Qed.

(** *** [isVersionInRange] against the comparison of triples *)

Lemma split_no_dot (s : string) : no_dot s = true -> split s = [s].
Proof.
  induction s as [|c r IH]; simpl; intros H; [reflexivity|].
  apply andb_true_iff in H as [Hc Hr]. apply negb_true_iff in Hc.
  rewrite Hc, (IH Hr). reflexivity.
Qed.

Lemma split_append_dot (s rest : string) :
  no_dot s = true -> split (s ++ String dot rest) = s :: split rest.
Proof.
  induction s as [|c r IH]; intros H.
  - reflexivity.
  - simpl in H. apply andb_true_iff in H as [Hc Hr]. apply negb_true_iff in Hc.
    change (split (String c (r ++ String dot rest)) = String c r :: split rest).
    simpl. rewrite Hc, (IH Hr). reflexivity.
Qed.

Lemma split_join (xs : list string) :
  xs <> [] -> Forall (fun x => no_dot x = true) xs -> split (join xs) = xs.
Proof.
  unfold join. induction xs as [|x xs IH]; intros Hne Hall; [congruence|].
  inversion Hall as [|? ? Hx Hxs]; subst.
  destruct xs as [|y ys].
  - apply split_no_dot, Hx.
  - change (String.concat "." (x :: y :: ys))
      with (x ++ String dot (String.concat "." (y :: ys)))%string.
    rewrite split_append_dot by exact Hx.
    rewrite IH by (auto; discriminate). reflexivity.
Qed.

Lemma string_of_uint_no_dot (d : Decimal.uint) :
  no_dot (NilEmpty.string_of_uint d) = true.
Proof. induction d; simpl; auto. Qed.

Lemma toString_no_dot (x : number) : no_dot (toString x) = true.
Proof.
  destruct x as [|n]; [reflexivity|]. unfold toString, NilZero.string_of_uint.
  destruct (N.to_uint n); try apply string_of_uint_no_dot. reflexivity.
Qed.

Lemma to_uint_nonnil (n : N) : N.to_uint n <> Decimal.Nil.
Proof.
  destruct n as [|p]; [discriminate|]. apply DecimalPos.Unsigned.to_uint_nonnil.
Qed.

(** Printing a number and reading it back gives the number. *)
Lemma Number_toString (x : number) : Number (toString x) = x.
Proof.
  destruct x as [|n]; [reflexivity|]. unfold Number, toString.
  pose proof (NilZero.usu (N.to_uint n) (to_uint_nonnil n)) as Husu.
  destruct (NilZero.string_of_uint (N.to_uint n)) as [|c r]; [discriminate|].
  rewrite Husu, DecimalN.Unsigned.of_to. reflexivity.
Qed.

(** The components [compareVersions] reads back from the normalised
    version are the first three components of the version. *)
Lemma normalizedVersion_parts (v : string) :
  map Number (split (normalizedVersion v)) = take 3 (map Number (split v)).
Proof.
  unfold normalizedVersion.
  set (parts := take 3 (map Number (split v))).
  rewrite split_join.
  - rewrite map_map. rewrite (map_ext _ id) by apply Number_toString.
    apply map_id.
  - subst parts. pose proof (split_nonempty v).
    destruct (split v); [congruence | discriminate].
  - apply Forall_forall. intros s Hs. apply list_elem_of_In, in_map_iff in Hs.
    destruct Hs as (x & <- & _). apply toString_no_dot.
Qed.

(** Against a bound of at most three components, the sign of
    [compareVersions] is the order of the triples. *)
Lemma compareVersions_triple (v s : string) :
  (length (split s) <= 3)%nat ->
  (compareVersions (normalizedVersion v) s <? 0) = triple_lt (triple v) (triple s) /\
  (compareVersions (normalizedVersion v) s >=? 0) =
    negb (triple_lt (triple v) (triple s)).
Proof.
  intros Hlen. unfold compareVersions. rewrite normalizedVersion_parts.
  set (parts := map Number (split v)).
  set (bParts := map Number (split s)).
  assert (Ha : (length (take 3 parts) <= 3)%nat) by (rewrite length_take; lia).
  assert (Hb : (length bParts <= 3)%nat) by (subst bParts; rewrite length_map; lia).
  pose proof (compareVersions_loop_enough (take 3 parts) bParts 3 0) as Henough.
  rewrite Nat.sub_0_r in Henough. rewrite <- Henough by (simpl; lia).
  unfold triple, triple_lt. fold parts. fold bParts. simpl.
  rewrite !lookup_take_lt by lia.
  generalize (or0 (parts !! 0%nat)) (or0 (parts !! 1%nat)) (or0 (parts !! 2%nat))
             (or0 (bParts !! 0%nat)) (or0 (bParts !! 1%nat)) (or0 (bParts !! 2%nat)).
  intros a0 a1 a2 b0 b1 b2.
  destruct (Z.eqb_spec a0 b0), (Z.eqb_spec a1 b1), (Z.eqb_spec a2 b2); simpl;
    rewrite ?Z.geb_leb; split;
    repeat match goal with
           | |- context [?x <? ?y] => destruct (Z.ltb_spec x y)
           | |- context [?x <=? ?y] => destruct (Z.leb_spec x y)
           end; simpl; try reflexivity; lia.
Qed.

(** The path of [src/scanner.ts] does compare triples: for a range with
    both bounds present, each of at most three components,
    [isVersionInRange] answers as the comparison of the specification. *)
Lemma isVersionInRange_compares_triples (v a b : string) :
  truthy_string a = true -> truthy_string b = true ->
  (length (split a) <= 3)%nat -> (length (split b) <= 3)%nat ->
  isVersionInRange v (Some [mkRange (Some a) (Some b)]) = spec_in_range v a b.
Proof.
  intros Hta Htb Ha Hb. unfold isVersionInRange, inRange, spec_in_range, triple_le.
  fold (normalizedVersion v). cbn [existsb atOrAbove below truthy default].
  rewrite Hta, Htb. cbn [andb]. unfold id.
  destruct (compareVersions_triple v a Ha) as [-> _].
  destruct (compareVersions_triple v b Hb) as [_ ->].
  destruct (triple_lt (triple v) (triple a)), (triple_lt (triple v) (triple b));
    reflexivity.
Qed.

(** C3, at the input [[{}]].  In [src/scanner.ts] a range with neither bound
    lets both guards pass and the callback returns [true]: every version is
    reported in range.  The older [_isVersionVulnerable] of
    [src/scanner.js] ends its cascade with [return false] for such a range. *)
Theorem isVersionInRange_range_without_bounds (v : string) :
  isVersionInRange v (Some [mkRange None None]) = true /\
  _isVersionVulnerable v [mkRange None None] = false.
Proof.
  split.
  - unfold isVersionInRange, inRange. simpl. reflexivity.
  - unfold _isVersionVulnerable. simpl. reflexivity.
Qed.

(** C1, at version [1.100.0] and the range [2.0.0 <= v < 3.0.0].
    [_parseVersion] weighs the components by 10000, 100 and 1, so [1.100.0]
    and [2.0.0] both become 20000 and [_isVersionVulnerable] reports the
    version in range, while the triples compare [(1,100,0) < (2,0,0)].
    [isVersionInRange] of [src/scanner.ts] answers [false] on the same
    input. *)
Theorem _isVersionVulnerable_weighted_sum_collides :
  _parseVersion "1.100.0" = _parseVersion "2.0.0" /\
  _isVersionVulnerable "1.100.0" [mkRange (Some "2.0.0") (Some "3.0.0")] = true /\
  spec_in_range "1.100.0" "2.0.0" "3.0.0" = false /\
  isVersionInRange "1.100.0" (Some [mkRange (Some "2.0.0") (Some "3.0.0")]) = false.
Proof. repeat split; vm_compute; reflexivity. Qed.

Section DependencyScan.

Variable moduleFindings : string -> list ScanResult.
Variable vulnerabilityDB : gmap string PackageInfo.

(** C4, as the code has it.  A dependency whose version holds no digit is
    sanitised to dots or to nothing and then matched exactly as version
    [0.0.0] is: the scan pushes one finding, carrying the version as
    written, for every record of the package with a range that admits
    [0.0.0].  The scan is a total function of its input. *)
Theorem scanDependency_no_digit (pkg v : string) (found : list ScanResult) :
  no_digit v = true ->
  scanDependency moduleFindings vulnerabilityDB found (pkg, v) =
  (found ++
   map (dependencyFinding pkg v)
     (List.filter (fun vuln => isVersionInRange "0.0.0" (ranges vuln))
        (knownVulnerabilities vulnerabilityDB pkg)) ++
   moduleFindings pkg)%list.
Proof.
  intros H. unfold scanDependency, knownVulnerabilities.
  rewrite app_assoc. f_equal.
  destruct (vulnerabilityDB !! pkg) as [[[vulns|]]|]; simpl;
    rewrite ?app_nil_r; try reflexivity.
  rewrite (fold_left_push
    (fun vuln => isVersionInRange (cleanVersion v) (ranges vuln))
    (dependencyFinding pkg v)).
  do 2 f_equal. apply List.filter_ext. intros vuln.
  apply isVersionInRange_no_digit, H.
Qed.

End DependencyScan.

(** C4 as stated fails: [latest] against a record with the range
    [below 1.9.0] is reported. *)
Lemma latest_is_reported :
  scanDependencies (fun _ => []) jquery_db (Some [("jquery", "latest")]) [] =
  [dependencyFinding "jquery" "latest" jquery_xss].
Proof. vm_compute. reflexivity. Qed.

Lemma scanDependency_no_digit_witness :
  no_digit "latest" = true /\
  scanDependency (fun _ => []) jquery_db [] ("jquery", "latest") =
  ([] ++
   map (dependencyFinding "jquery" "latest")
     (List.filter (fun vuln => isVersionInRange "0.0.0" (ranges vuln))
        (knownVulnerabilities jquery_db "jquery")) ++ [])%list.
Proof.
  split; [reflexivity|].
  apply (scanDependency_no_digit (fun _ => []) jquery_db "jquery" "latest" []).
  reflexivity.
Defined.

End VersionFacts.

(** ** The severity filter *)

Section SeverityFacts.
Import JS Scan.

Lemma severityLevels_order :
  indexOf severityLevels "low" = 0 /\ indexOf severityLevels "medium" = 1 /\
  indexOf severityLevels "high" = 2 /\ indexOf severityLevels "critical" = 3.
Proof. repeat split. Qed.



(** The example of the specification: with the minimum [high], of one
    finding per severity only [high] and [critical] remain, in their
    order. *)
Lemma filterBySeverity_high :
  map severityIndex
    (filterBySeverity "high"
       (map (fun sev => mkScanResult None None None None
                          (mkVulnerability sev "" None None))
          ["low"; "critical"; "medium"; "high"; "low"; "critical"])) =
  [3; 2; 3].
Proof. reflexivity. Qed.

End SeverityFacts.

(** ** The pattern matcher *)

Section AstInduction.
Import Ast.

Variable P : node -> Prop.

Hypothesis P_Identifier : forall name, P (Identifier name).
Hypothesis P_Literal : forall v, P (Literal v).
Hypothesis P_TemplateLiteral :
  forall quasis expressions, Forall P expressions -> P (TemplateLiteral quasis expressions).
Hypothesis P_ThisExpression : P ThisExpression.
Hypothesis P_MemberExpression :
  forall o p c, P o -> P p -> P (MemberExpression o p c).
Hypothesis P_CallExpression :
  forall callee args, P callee -> Forall P args -> P (CallExpression callee args).
Hypothesis P_AssignmentExpression :
  forall op l r, P l -> P r -> P (AssignmentExpression op l r).
Hypothesis P_ObjectExpression :
  forall properties, Forall P properties -> P (ObjectExpression properties).
Hypothesis P_Property : forall k v c, P k -> P v -> P (Property k v c).
Hypothesis P_ArrayExpression :
  forall elements, Forall (fun e => forall n, e = Some n -> P n) elements ->
  P (ArrayExpression elements).
Hypothesis P_SpreadElement : forall a, P a -> P (SpreadElement a).
Hypothesis P_VariableDeclarator :
  forall id init, P id -> (forall i, init = Some i -> P i) ->
  P (VariableDeclarator id init).
Hypothesis P_OtherNode :
  forall t children, Forall P children -> P (OtherNode t children).

(** Induction over a tree whose children sit in lists and options. *)
Lemma node_nested_ind : forall n, P n.
Proof.
  fix IH 1. intros n.
  destruct n as [name|v|quasis expressions| |o p c|callee args|op l r|properties
                |k v c|elements|a|id init|t children].
  - apply P_Identifier.
  - apply P_Literal.
  - apply P_TemplateLiteral.
    induction expressions as [|x xs IHxs]; constructor; [apply IH | exact IHxs].
  - apply P_ThisExpression.
  - apply P_MemberExpression; apply IH.
  - apply P_CallExpression; [apply IH|].
    induction args as [|x xs IHxs]; constructor; [apply IH | exact IHxs].
  - apply P_AssignmentExpression; apply IH.
  - apply P_ObjectExpression.
    induction properties as [|x xs IHxs]; constructor; [apply IH | exact IHxs].
  - apply P_Property; apply IH.
  - apply P_ArrayExpression.
    induction elements as [|e es IHes]; constructor; [|exact IHes].
    destruct e as [x|]; intros n Heq; [|discriminate].
    injection Heq as <-. apply IH.
  - apply P_SpreadElement, IH.
  - apply P_VariableDeclarator; [apply IH|].
    destruct init as [x|]; intros i Heq; [|discriminate].
    injection Heq as <-. apply IH.
  - apply P_OtherNode.
    induction children as [|x xs IHxs]; constructor; [apply IH | exact IHxs].
Qed.

End AstInduction.

Section MatcherFacts.
Import JS Ast Matcher.

Variable regex_valid : string -> bool.
Variable regex_test : string -> string -> bool.

Local Abbreviation ok := (regex_ok regex_valid).
Local Abbreviation matchExpr := (matchExpressionPattern regex_valid regex_test).

Lemma returns_Returns (b : bool) : returns (Returns b).
Proof. exists b; reflexivity. Qed.

Create HintDb matcher.
#[local] Hint Resolve returns_Returns : matcher.

(** *** The sources of a rule's parts are sources of the rule *)

Lemma ok_regex (p : pat) (src : string) :
  ok p -> p_regex p = Some src -> regex_valid src = true.
Proof.
  intros Hok Hsrc. apply Hok. destruct p; simpl in *; subst. left; reflexivity.
Qed.

Lemma ok_properties (p : pat) (kvs : list (string * pat)) (k : string) (q : pat) :
  ok p -> p_properties p = Some kvs -> In (k, q) kvs -> ok q.
Proof.
  intros Hok Hkvs Hin src Hsrc. apply Hok.
  destruct p; simpl in *; subst. apply in_app_iff; right.
  apply in_app_iff; left. apply in_flat_map. exists (k, q); auto.
Qed.

Lemma ok_elements (p : pat) (qs : list pat) (q : pat) :
  ok p -> p_elements p = Some qs -> In q qs -> ok q.
Proof.
  intros Hok Hqs Hin src Hsrc. apply Hok.
  destruct p; simpl in *; subst. apply in_app_iff; right.
  apply in_app_iff; right. apply in_app_iff; left.
  apply in_flat_map. exists q; auto.
Qed.

Lemma ok_left (p q : pat) : ok p -> p_left p = Some q -> ok q.
Proof.
  intros Hok Hq src Hsrc. apply Hok.
  destruct p; simpl in *; subst. apply in_app_iff; right.
  do 2 (apply in_app_iff; right). apply in_app_iff; left. exact Hsrc.
Qed.

Lemma ok_right (p q : pat) : ok p -> p_right p = Some q -> ok q.
Proof.
  intros Hok Hq src Hsrc. apply Hok.
  destruct p; simpl in *; subst. apply in_app_iff; right.
  do 3 (apply in_app_iff; right). apply in_app_iff; left. exact Hsrc.
Qed.

Lemma ok_arguments (p : pat) (qs : list pat) (q : pat) :
  ok p -> p_arguments p = Some qs -> In q qs -> ok q.
Proof.
  intros Hok Hqs Hin src Hsrc. apply Hok.
  destruct p; simpl in *; subst. apply in_app_iff; right.
  do 4 (apply in_app_iff; right). apply in_app_iff; left.
  apply in_flat_map. exists q; auto.
Qed.

Lemma ok_pattern (p q : pat) : ok p -> p_pattern p = Some q -> ok q.
Proof.
  intros Hok Hq src Hsrc. apply Hok.
  destruct p; simpl in *; subst. apply in_app_iff; right.
  do 5 (apply in_app_iff; right). exact Hsrc.
Qed.

Lemma ok_inner (ty : string) (p q : pat) : ok p -> inner_of ty p = Some q -> ok q.
Proof.
  unfold inner_of. intros Hok H.
  destruct (p_pattern p) as [inner|] eqn:Hp; [|discriminate].
  destruct (String.eqb (p_type inner) ty); [|discriminate].
  injection H as <-. eapply ok_pattern; eauto.
Qed.

(** *** The leaf matchers return when the rule's sources construct *)

Lemma RegExp_test_returns (p : pat) (s : string) :
  ok p -> truthy (p_regex p) = true ->
  returns (RegExp_test regex_valid regex_test (default "" (p_regex p)) s).
Proof.
  intros Hok Ht. destruct (p_regex p) as [src|] eqn:Hsrc; [|discriminate].
  unfold RegExp_test. simpl. rewrite (ok_regex p src Hok Hsrc).
  auto with matcher.
Qed.

Lemma matchLiteralPattern_returns (v : value) (p : pat) :
  ok p -> returns (matchLiteralPattern regex_valid regex_test v p).
Proof.
  intros Hok. unfold matchLiteralPattern.
  destruct (String.eqb (p_type p) "Literal"); auto with matcher.
  destruct (p_value p); auto with matcher.
  destruct (truthy (p_regex p)) eqn:Ht; auto with matcher.
  apply RegExp_test_returns; assumption.
Qed.

Lemma matchTemplateLiteralPattern_returns (quasis : list string) (p : pat) :
  ok p -> returns (matchTemplateLiteralPattern regex_valid regex_test quasis p).
Proof.
  intros Hok. unfold matchTemplateLiteralPattern.
  destruct (negb (String.eqb (p_type p) "TemplateLiteral")); auto with matcher.
  destruct (truthy (p_regex p)) eqn:Ht; auto with matcher.
  apply RegExp_test_returns; assumption.
Qed.

Lemma matchIdentifierPattern_returns (name : string) (p : pat) :
  ok p -> returns (matchIdentifierPattern regex_valid regex_test name p).
Proof.
  intros Hok. unfold matchIdentifierPattern.
  destruct (String.eqb (p_type p) "Identifier"); auto with matcher.
  destruct (truthy (p_name p)); auto with matcher.
  destruct (truthy (p_regex p)) eqn:Ht; auto with matcher.
  apply RegExp_test_returns; assumption.
Qed.

(** *** [some] and the two positional loops *)

Lemma some_returns {A} (f : A -> outcome bool) (xs : list A) :
  (forall x, In x xs -> returns (f x)) -> returns (some f xs).
Proof.
  induction xs as [|x xs IH]; intros H; simpl; auto with matcher.
  destruct (H x (or_introl eq_refl)) as [b ->]. simpl.
  destruct b; auto with matcher. apply IH. intros y Hy. apply H. right; exact Hy.
Qed.


Lemma every_element_returns (recur : node -> pat -> outcome bool)
    (patterns : list pat) (elements : list (option node)) :
  (forall n q, In (Some n) elements -> In q patterns -> returns (recur n q)) ->
  returns (every_element recur elements patterns).
Proof.
  revert elements; induction patterns as [|q qs IH]; intros elements H.
  { destruct elements; simpl; auto with matcher. }
  destruct elements as [|e es]; simpl; auto with matcher.
  destruct e as [n|]; simpl; auto with matcher.
  destruct (H n q) as [b ->]; simpl; auto.
  destruct b; auto with matcher.
  apply IH. intros n' q' Hn Hq. apply H; simpl; auto.
Qed.


Local Abbreviation T := (returns_on regex_valid regex_test).

Lemma matchObjectPattern_with_returns (properties : list node) (p : pat) :
  ok p -> (forall k v c, In (Property k v c) properties -> T v) ->
  returns (matchObjectPattern_with matchExpr properties p).
Proof.
  intros Hok HT. unfold matchObjectPattern_with.
  destruct (negb (String.eqb (p_type p) "ObjectExpression")); auto with matcher.
  destruct (p_properties p) as [kvs|] eqn:Hkvs; auto with matcher.
  apply some_returns. intros prop Hprop.
  destruct prop; auto with matcher.
  apply some_returns. intros [pk pv] Hpp.
  destruct (key_of _); auto with matcher.
  destruct (String.eqb pk s); auto with matcher.
  eapply HT; eauto. eapply ok_properties; eauto.
Qed.

Lemma matchArrayPattern_with_returns (elements : list (option node)) (p : pat) :
  ok p -> (forall n, In (Some n) elements -> T n) ->
  returns (matchArrayPattern_with matchExpr elements p).
Proof.
  intros Hok HT. unfold matchArrayPattern_with.
  destruct (negb (String.eqb (p_type p) "ArrayExpression")); auto with matcher.
  destruct (p_elements p) as [qs|] eqn:Hqs; auto with matcher.
  destruct (negb _); auto with matcher.
  apply every_element_returns. intros n q Hn Hq.
  apply HT; auto. eapply ok_elements; eauto.
Qed.

Lemma matchArgumentPattern_with_returns (a : node) (p : pat) :
  ok p -> T a -> returns (matchArgumentPattern_with regex_valid regex_test matchExpr a p).
Proof.
  intros Hok HT. destruct a; simpl; auto with matcher.
  - apply matchIdentifierPattern_returns, Hok.
  - apply matchLiteralPattern_returns, Hok.
  - apply matchTemplateLiteralPattern_returns, Hok.
  - exact (HT p Hok).
  - exact (HT p Hok).
Qed.

Lemma every_argument_returns (patterns : list pat) (args : list node) :
  length args = length patterns ->
  (forall q, In q patterns -> ok q) -> (forall a, In a args -> T a) ->
  returns (every_argument regex_valid regex_test matchExpr args patterns).
Proof.
  revert args; induction patterns as [|q qs IH]; intros args Hlen Hok HT.
  { destruct args; simpl; auto with matcher. }
  destruct args as [|a args]; [simpl in Hlen; discriminate|].
  assert (Hb : returns (matchArgumentPattern_with regex_valid regex_test matchExpr a q)).
  { apply matchArgumentPattern_with_returns; [apply Hok | apply HT]; left; reflexivity. }
  simpl. destruct Hb as [b ->]; simpl.
  destruct b; auto with matcher.
  apply IH; simpl in *; auto.
Qed.

Lemma matchCallExpression_with_returns (callee : node) (args : list node) (p : pat) :
  ok p -> (forall a, In a args -> T a) ->
  returns (matchCallExpression_with regex_valid regex_test matchExpr callee args p).
Proof.
  intros Hok HT. unfold matchCallExpression_with.
  destruct (negb (String.eqb (p_type p) "CallExpression")); auto with matcher.
  destruct (inner_of "CallExpression" p) as [inner|] eqn:Hinner.
  - assert (Hin : ok inner) by (eapply ok_inner; eauto).
    match goal with |- returns (if ?c then _ else _) => destruct c end;
      auto with matcher.
    destruct (p_arguments inner) as [qs|] eqn:Hqs; auto with matcher.
    destruct (Nat.eqb (length args) (length qs)) eqn:Hlen; simpl;
      auto with matcher.
    apply Nat.eqb_eq in Hlen.
    apply every_argument_returns; auto.
    intros q Hq. eapply ok_arguments; eauto.
  - auto with matcher.
Qed.

(** The matcher of expressions returns on every node, and so does it on the
    value of a property. *)
Lemma matchExpressionPattern_returns_nested (n : node) :
  T n /\ match n with
         | Property _ v _ => T v
         | _ => True
         end.
Proof.
  induction n using node_nested_ind; (split; [intros q Hok; simpl | auto]);
    auto with matcher.
  - apply matchIdentifierPattern_returns, Hok.
  - apply matchLiteralPattern_returns, Hok.
  - apply matchCallExpression_with_returns; auto.
    intros a Ha. rewrite Forall_forall in H. apply (H a). apply list_elem_of_In, Ha.
  - apply matchObjectPattern_with_returns; auto.
    intros k v c Hin. rewrite Forall_forall in H.
    apply (H (Property k v c)). apply list_elem_of_In, Hin.
  - apply IHn2.
  - apply matchArrayPattern_with_returns; auto.
    intros n Hin. rewrite Forall_forall in H.
    apply (H (Some n)); [apply list_elem_of_In, Hin | reflexivity].
Qed.

Lemma matchExpressionPattern_returns (n : node) (p : pat) :
  ok p -> returns (matchExpr n p).
Proof. intros Hok. apply (matchExpressionPattern_returns_nested n), Hok. Qed.


Lemma matchAssignmentExpression_returns (operator : string) (lhs rhs : node) (p : pat) :
  ok p -> returns (matchAssignmentExpression regex_valid regex_test operator lhs rhs p).
Proof.
  intros Hok. unfold matchAssignmentExpression.
  destruct (negb (String.eqb (p_type p) "AssignmentExpression")); auto with matcher.
  match goal with |- returns (if ?c then _ else _) => destruct c end;
    auto with matcher.
  assert (Hl : returns (match p_left p with
                        | Some q => matchExpr lhs q
                        | None => Returns true
                        end)).
  { destruct (p_left p) eqn:Hq; auto with matcher.
    apply matchExpressionPattern_returns. eapply ok_left; eauto. }
  assert (Hr : returns (match p_right p with
                        | Some q => matchExpr rhs q
                        | None => Returns true
                        end)).
  { destruct (p_right p) eqn:Hq; auto with matcher.
    apply matchExpressionPattern_returns. eapply ok_right; eauto. }
  destruct Hl as [bl ->], Hr as [br ->]. simpl.
  destruct bl, br; simpl; auto with matcher.
Qed.

(** C8, as the code has it.  On a rule all of whose regular expressions
    construct, [matchesPattern] returns a boolean for every node; it returns
    [false] whenever the kind of the node is not the rule's [type]; and,
    being a function of the node and the rule alone, it gives one answer per
    input. *)
Theorem matchesPattern_returns (n : node) (p : pat) :
  ok p ->
  returns (matchesPattern regex_valid regex_test n p) /\
  (type_of n <> p_type p ->
   matchesPattern regex_valid regex_test n p = Returns false) /\
  (forall r1 r2, matchesPattern regex_valid regex_test n p = r1 ->
                 matchesPattern regex_valid regex_test n p = r2 -> r1 = r2).
Proof.
  intros Hok. split; [|split].
  - unfold matchesPattern.
    match goal with |- returns (if ?c then _ else _) => destruct c end;
      auto with matcher.
    destruct n; auto with matcher.
    + apply matchCallExpression_with_returns; auto.
      intros a _ q Hq. apply matchExpressionPattern_returns, Hq.
    + apply matchAssignmentExpression_returns, Hok.
  - intros Hty. unfold matchesPattern.
    match goal with |- (if ?c then _ else _) = _ => destruct c end;
      [reflexivity|].
    assert (Hneq : String.eqb (p_type p) (type_of n) = false).
    { apply String.eqb_neq. congruence. }
    destruct n; try reflexivity; simpl in Hneq.
    + unfold matchMemberExpression. rewrite Hneq. reflexivity.
    + unfold matchCallExpression, matchCallExpression_with. rewrite Hneq.
      reflexivity.
    + unfold matchAssignmentExpression. rewrite Hneq. reflexivity.
  - intros r1 r2 <- <-. reflexivity.
Qed.

End MatcherFacts.

Section MatcherExamples.
Import JS Ast Matcher Samples.



(** C8 as stated fails: a rule whose regular expression does not construct
    makes the matcher throw.  Here the rule asks for a call of [eval] whose
    argument matches the source ["("]. *)
Lemma matchesPattern_throws_on_invalid_regex :
  matchesPattern plain_valid plain_test eval_x (eval_rule "(") = Throws SyntaxError.
Proof. vm_compute. reflexivity. Qed.

Lemma matchesPattern_returns_witness :
  regex_ok plain_valid (eval_rule "x") /\
  returns (matchesPattern plain_valid plain_test eval_x (eval_rule "x")) /\
  (type_of eval_x <> p_type (eval_rule "x") ->
   matchesPattern plain_valid plain_test eval_x (eval_rule "x") = Returns false) /\
  (forall r1 r2,
     matchesPattern plain_valid plain_test eval_x (eval_rule "x") = r1 ->
     matchesPattern plain_valid plain_test eval_x (eval_rule "x") = r2 -> r1 = r2).
Proof.
  assert (Hok : regex_ok plain_valid (eval_rule "x")).
  { intros src Hsrc. simpl in Hsrc. destruct Hsrc as [<- | []]. reflexivity. }
  split; [exact Hok|].
  exact (matchesPattern_returns plain_valid plain_test eval_x (eval_rule "x") Hok).
Defined.

End MatcherExamples.

(** ** The data-flow graph *)

Section DataFlowFacts.
Import JS Ast DataFlow Samples.

Lemma append_assoc (a b c : string) : ((a ++ b) ++ c = a ++ (b ++ c))%string.
Proof.
  induction a as [|x a IH]; [reflexivity|].
  change (String x ((a ++ b) ++ c) = String x (a ++ (b ++ c)))%string.
  rewrite IH. reflexivity.
Qed.

Lemma join_snoc (xs : list string) (x : string) :
  xs <> [] -> join (xs ++ [x]) = (join xs ++ "." ++ x)%string.
Proof.
  unfold join. induction xs as [|y ys IH]; intros Hne; [congruence|].
  destruct ys as [|z zs]; [reflexivity|].
  change (String.concat "." ((y :: z :: zs) ++ [x]))
    with (y ++ "." ++ String.concat "." ((z :: zs) ++ [x]))%string.
  rewrite IH by discriminate.
  change (String.concat "." (y :: z :: zs))
    with (y ++ "." ++ String.concat "." (z :: zs))%string.
  rewrite !append_assoc. reflexivity.
Qed.

Lemma join_truthy (xs : list string) :
  xs <> [] -> Forall (fun x => x <> "") xs -> truthy_string (join xs) = true.
Proof.
  intros Hne Hall. destruct xs as [|x xs]; [congruence|].
  inversion Hall as [|? ? Hx _]; subst.
  destruct x as [|c x]; [congruence|].
  unfold join. destruct xs; reflexivity.
Qed.

Lemma static_path_nonempty (n : node) (xs : list string) :
  static_path n = Some xs -> xs <> [].
Proof.
  destruct n; simpl; try discriminate.
  - intros [= <-]. discriminate.
  - destruct n2; try discriminate. destruct computed; try discriminate.
    destruct (static_path n1); [|discriminate].
    intros [= <-]. destruct l; discriminate.
Qed.

Lemma getNodeId_static_path (n : node) (xs : list string) :
  static_path n = Some xs -> Forall (fun x => x <> "") xs ->
  getNodeId n = Some (join xs).
Proof.
  revert xs. induction n; intros xs; simpl; try discriminate.
  - intros [= <-] _. reflexivity.
  - destruct n2; try discriminate. destruct computed; try discriminate.
    destruct (static_path n1) as [names|] eqn:Hnames; [|discriminate].
    intros [= <-] Hall. apply Forall_app in Hall as [Hnames' Hname].
    rewrite (IHn1 names eq_refl Hnames'). simpl.
    rewrite (join_truthy names (static_path_nonempty n1 names Hnames) Hnames').
    inversion Hname as [|? ? Hn _]; subst.
    destruct name as [|c name]; [congruence|]. simpl.
    rewrite join_snoc by (eapply static_path_nonempty; eauto).
    reflexivity.
Qed.

(** C9, as the code has it.  An identifier yields its name.  A static
    member chain of any depth yields its identifiers joined by dots.  A node
    that is neither an identifier nor a member access yields no id, and a
    member access yields none as soon as its object or its property has
    none.  An assignment one side of which has no id leaves the graph as it
    was. *)
Theorem getNodeId_shapes :
  (forall name, getNodeId (Identifier name) = Some name) /\
  (forall n xs, static_path n = Some xs -> Forall (fun x => x <> "") xs ->
                getNodeId n = Some (join xs)) /\
  (forall n, type_of n <> "Identifier" -> type_of n <> "MemberExpression" ->
             getNodeId n = None) /\
  (forall o p c, getNodeId o = None \/ getNodeId p = None ->
                 getNodeId (MemberExpression o p c) = None) /\
  (forall lhs rhs g, getNodeId lhs = None \/ getNodeId rhs = None ->
                     trackAssignment lhs rhs g = g).
Proof.
  split; [reflexivity|]. split; [exact getNodeId_static_path|].
  split; [|split].
  - intros n H1 H2. destruct n; simpl in *; congruence.
  - intros o p c [H | H]; simpl; rewrite H; simpl;
      [reflexivity | rewrite andb_false_r; reflexivity].
  - intros lhs rhs g [H | H]; unfold trackAssignment; rewrite H; simpl;
      [reflexivity | rewrite andb_false_r; reflexivity].
Qed.

(** C9 as stated fails: the three-level chain [a.b.c] has an id. *)
Lemma getNodeId_deep_chain : getNodeId a_b_c = Some "a.b.c".
Proof. reflexivity. Qed.

Lemma getNodeId_shapes_witness :
  static_path a_b_c = Some ["a"; "b"; "c"] /\
  Forall (fun x => x <> "") ["a"; "b"; "c"] /\
  getNodeId a_b_c = Some (join ["a"; "b"; "c"]).
Proof.
  assert (Hall : Forall (fun x : string => x <> "") ["a"; "b"; "c"])
    by (repeat constructor; discriminate).
  split; [reflexivity|]. split; [exact Hall|].
  destruct getNodeId_shapes as (_ & Hchain & _).
  exact (Hchain a_b_c ["a"; "b"; "c"] eq_refl Hall).
Defined.

(** An edge whose source is its own key sends [getDataFlowSources] into a
    recursion no depth of calls ends. *)
Lemma getDataFlowSources_self_edge (g : graph) (flow : DataFlow) (s : string) :
  source flow = Some s -> truthy_string s = true -> map_get g s = Some flow ->
  forall fuel, getDataFlowSources fuel g flow = None.
Proof.
  intros Hs Ht Hg fuel. induction fuel as [|fuel IH]; simpl; [reflexivity|].
  rewrite Hs. simpl. rewrite Ht, Hg, IH. reflexivity.
Qed.

(** More calls never lose a result. *)
Lemma getDataFlowSources_more_fuel (g : graph) (fuel : nat) :
  forall flow sources,
    getDataFlowSources fuel g flow = Some sources ->
    getDataFlowSources (S fuel) g flow = Some sources.
Proof.
  induction fuel as [|fuel IH]; intros flow sources; [discriminate|].
  intros H. simpl in H. change (getDataFlowSources (S (S fuel)) g flow) with
    (if truthy (source flow) then
       let s := default "" (source flow) in
       match map_get g s with
       | Some sourceFlow =>
           match getDataFlowSources (S fuel) g sourceFlow with
           | Some more => Some (uniq (s :: more))
           | None => None
           end
       | None => Some (uniq [s])
       end
     else Some (uniq [])).
  destruct (truthy (source flow)); [|exact H]. cbv zeta in *.
  destruct (map_get g (default "" (source flow))) as [sourceFlow|]; [|exact H].
  destruct (getDataFlowSources fuel g sourceFlow) as [more|] eqn:Hmore;
    [|discriminate].
  rewrite (IH sourceFlow more Hmore). exact H.
Qed.

(** On the graph of [b = c; a = b;], which has no cycle, two calls answer
    the query for [a]. *)
Lemma getDataFlowSources_two_assignments :
  getDataFlowSources 2 (buildDataFlowGraph two_assignments)
    (mkDataFlow assignment (Some "b") None) = Some ["b"; "c"] /\
  findDataFlowSinks 3 (buildDataFlowGraph two_assignments) "c" = Some ["b"; "a"].
Proof. split; reflexivity. Qed.

Lemma sinks_loop_diverges (recur : string -> option (list string)) (nodeId : string)
    (entries : list (string * DataFlow)) :
  (exists id flow, In (id, flow) entries /\ flows_from nodeId flow = true /\
                   recur id = None) ->
  forall sinks, sinks_loop recur nodeId entries sinks = None.
Proof.
  induction entries as [|[id' flow'] rest IH]; intros (id & flow & Hin & Hf & Hr) sinks.
  - destruct Hin.
  - simpl. destruct Hin as [[= -> ->] | Hin].
    + rewrite Hf, Hr. reflexivity.
    + destruct (flows_from nodeId flow'); [destruct (recur id')|];
        try reflexivity; apply IH; eauto.
Qed.

(** An edge that flows from its own key sends [findDataFlowSinks] into a
    recursion no depth of calls ends. *)
Lemma findDataFlowSinks_self_edge (g : graph) (id : string) (flow : DataFlow) :
  In (id, flow) g -> flows_from id flow = true ->
  forall fuel, findDataFlowSinks fuel g id = None.
Proof.
  intros Hin Hf fuel. induction fuel as [|fuel IH]; simpl; [reflexivity|].
  apply sinks_loop_diverges. exists id, flow. auto.
Qed.

(** C2, at the file [a = a;].  The graph of the file holds the single edge
    from [a] to [a].  On it [getDataFlowSources] and [findDataFlowSinks]
    open a new call at every level, whatever the depth allowed: neither
    returns, and neither does [analyzeDataFlow] on a node whose id is [a].
    The source has no visited set; at run time the recursion ends in a
    [RangeError] when the stack is exhausted. *)
Theorem dataflow_queries_diverge_on_self_assignment :
  buildDataFlowGraph self_assignment = [("a", a_from_a)] /\
  (forall fuel,
     getDataFlowSources fuel (buildDataFlowGraph self_assignment) a_from_a = None) /\
  (forall fuel,
     findDataFlowSinks fuel (buildDataFlowGraph self_assignment) "a" = None) /\
  (forall fuel,
     analyzeDataFlow fuel (buildDataFlowGraph self_assignment) (Identifier "a") = None).
Proof.
  assert (Hg : buildDataFlowGraph self_assignment = [("a", a_from_a)])
    by reflexivity.
  assert (Hsources : forall fuel,
    getDataFlowSources fuel (buildDataFlowGraph self_assignment) a_from_a = None).
  { apply (getDataFlowSources_self_edge _ a_from_a "a"); reflexivity. }
  split; [exact Hg|]. split; [exact Hsources|]. split.
  - apply (findDataFlowSinks_self_edge _ "a" a_from_a); [|reflexivity].
    rewrite Hg. left; reflexivity.
  - intros fuel. unfold analyzeDataFlow. simpl getNodeId. cbv iota beta.
    change (truthy_string "a") with true. cbv iota.
    rewrite Hg at 1. change (map_get [("a", a_from_a)] "a") with (Some a_from_a).
    cbv iota beta. rewrite Hsources. reflexivity.
Qed.

End DataFlowFacts.

(** ** The parallel scanner *)

Section ParallelFacts.
Import JS Scan Parallel Samples.

Lemma run_file_fold (scan : string -> outcome (list ScanResult)) (files : list string) :
  forall results posted,
    fold_left (run_file scan) files (results, posted) =
    ((results ++ flat_map (file_results scan) files)%list,
     (posted ++ map (file_message scan) files)%list).
Proof.
  induction files as [|file files IH]; intros results posted; simpl.
  - rewrite !app_nil_r. reflexivity.
  - unfold file_results at 1, file_message at 1.
    destruct (scan file) as [fileResults|e]; simpl; rewrite IH.
    + destruct fileResults; simpl; rewrite <- ?app_assoc, ?app_nil_r; reflexivity.
    + rewrite <- app_assoc. reflexivity.
Qed.

(** The worker's protocol, whatever [scan] it calls: one message per file,
    [progress] when the scan of the file returned and [error] when it threw,
    then the [result] message with the findings of the files that
    returned. *)
Lemma run_messages (scan : string -> outcome (list ScanResult)) (files : list string) :
  run scan files =
  (map (file_message scan) files ++ [result (flat_map (file_results scan) files)])%list.
Proof. unfold run. rewrite run_file_fold. reflexivity. Qed.

(** C6, at the files [bad.js], which does not parse, and [good.js].
    [scanSourceFile] catches the failure of its own analysis and returns the
    empty list, so the [catch] of the worker's loop is never entered through
    it: for every analysis and every chunk the worker posts [progress] for
    each file, failed or not, and no [error] message.  On the two files the
    parent sees two progress events and the findings of [good.js]. *)
Theorem run_posts_progress_for_failed_file :
  (forall analyse files,
     run (scanSourceFile analyse) files =
     (map progress files ++
      [result (flat_map (file_results (scanSourceFile analyse)) files)])%list) /\
  run (scanSourceFile bad_then_good) ["bad.js"; "good.js"] =
    [progress "bad.js"; progress "good.js"; result [good_finding]] /\
  scanInParallel 1
    (map (on_message 0) (run (scanSourceFile bad_then_good) ["bad.js"; "good.js"])
     ++ [on_exit 0 0]) = scanResolved [good_finding].
Proof.
  split; [|split; reflexivity].
  intros analyse files. rewrite run_messages. f_equal.
  apply map_ext. intros file. unfold file_message, scanSourceFile.
  destruct (analyse file); reflexivity.
Qed.

(** Had [scan] thrown, the worker would have posted the [error] message and
    gone on with the next file. *)
Lemma run_catches_a_throwing_scan :
  run bad_then_good ["bad.js"; "good.js"] =
  [error SyntaxError (Some "bad.js"); progress "good.js"; result [good_finding]].
Proof. reflexivity. Qed.

Lemma handle_keeps_failure (p : pool) (ev : event) (why : rejection) :
  failure p = Some why -> failure (handle p ev) = Some why.
Proof.
  intros H. destruct ev as [w [data|file|e file]|w e|w code]; simpl; auto;
    unfold settle; destruct (promises p !! w) as [[]|]; simpl; auto;
    rewrite H; reflexivity.
Qed.

Lemma fold_handle_keeps_failure (trace : list event) (p : pool) (why : rejection) :
  failure p = Some why -> failure (fold_left handle trace p) = Some why.
Proof.
  revert p; induction trace as [|ev trace IH]; intros p H; simpl; auto.
  apply IH, handle_keeps_failure, H.
Qed.

Lemma fold_handle_messages (trace : list event) (p : pool) :
  forallb is_message trace = true ->
  promises (fold_left handle trace p) = promises p /\
  failure (fold_left handle trace p) = failure p.
Proof.
  revert p; induction trace as [|ev trace IH]; intros p H; simpl; auto.
  simpl in H. apply andb_true_iff in H as [Hev Htrace].
  destruct (IH (handle p ev) Htrace) as [-> ->].
  destruct ev as [w [data|file|e file]|w e|w code]; try discriminate; auto.
Qed.

(** The hard half of the asymmetry.  When the first event that is not a
    message is the exit of a worker with a non-zero code, the scan rejects
    with that exit, whatever happens afterwards. *)
Lemma scanInParallel_rejects_on_exit_code
    (numWorkers w : nat) (code : Z) (before after : list event) :
  (w < numWorkers)%nat -> code <> 0 -> forallb is_message before = true ->
  scanInParallel numWorkers (before ++ on_exit w code :: after) =
  scanRejected (WorkerStopped code).
Proof.
  intros Hw Hcode Hbefore. unfold scanInParallel.
  rewrite fold_left_app.
  set (start := mkPool _ _ _ _).
  change (fold_left handle (on_exit w code :: after) (fold_left handle before start))
    with (fold_left handle after
            (handle (fold_left handle before start) (on_exit w code))).
  destruct (fold_handle_messages before start Hbefore) as [Hp Hf].
  assert (Hfail : failure (handle (fold_left handle before start) (on_exit w code))
                  = Some (WorkerStopped code)).
  { simpl. unfold settle. rewrite Hp. subst start. simpl.
    rewrite lookup_replicate_2 by exact Hw. simpl.
    rewrite Hf. simpl.
    apply Z.eqb_neq in Hcode. rewrite Hcode. reflexivity. }
  rewrite (fold_handle_keeps_failure after _ _ Hfail). reflexivity.
Qed.

Lemma concat_slices (per : nat) (files : list string) (n : nat) :
  concat (map (fun i => take per (drop (i * per) files)) (seq 0 n)) =
  take (n * per) files.
Proof.
  induction n as [|n IH].
  - rewrite take_0. reflexivity.
  - rewrite seq_S, map_app, concat_app, IH. simpl. rewrite app_nil_r.
    rewrite take_take_drop. f_equal. lia.
Qed.

(** The chunks handed to the workers are the file list cut in order: every
    file goes to exactly one worker. *)
Lemma workerFiles_partition (files : list string) (numWorkers : nat) :
  (0 < numWorkers)%nat -> concat (workerFiles files numWorkers) = files.
Proof.
  intros Hpos. unfold workerFiles. rewrite concat_slices.
  apply take_ge. unfold filesPerWorker.
  pose proof (Nat.div_mod_eq (length files + numWorkers - 1) numWorkers) as Hdiv.
  pose proof (Nat.mod_upper_bound (length files + numWorkers - 1) numWorkers) as Hmod.
  nia.
Qed.

End ParallelFacts.

(** ** The vulnerability cache *)

Section CacheFacts.
Import JS Scan Cache Samples.

Lemma findIndex_Some (s : string) (vs : list Vulnerability) (i : nat) :
  findIndex s vs = Some i -> exists w, vs !! i = Some w /\ summary w = s.
Proof.
  revert i; induction vs as [|v vs IH]; intros i; simpl; [discriminate|].
  destruct (String.eqb (summary v) s) eqn:Heq.
  - intros [= <-]. exists v. split; [reflexivity | apply String.eqb_eq, Heq].
  - destruct (findIndex s vs) as [j|]; [|discriminate].
    intros [= <-]. destruct (IH j eq_refl) as (w & Hw & Hs). exists w. auto.
Qed.

(** The update of the parsed database touches the entry of [packageName]
    only, and in it at most one record. *)
Lemma updateDatabase_frame (db db' : DatabaseEntry) (pkg : string) (v : Vulnerability) :
  updateDatabase db pkg v = Returns db' ->
  (forall p, p <> pkg -> db' !! p = db !! p) /\
  one_record_updated v (knownVulnerabilities db pkg) (knownVulnerabilities db' pkg).
Proof.
  unfold updateDatabase, knownVulnerabilities.
  destruct (db !! pkg) as [[[vs|]]|] eqn:Hpkg; simpl; try discriminate.
  - intros [= <-]. split.
    + intros p Hp. rewrite lookup_insert_ne by congruence. reflexivity.
    + rewrite lookup_insert_eq. simpl.
      destruct (findIndex (summary v) vs) as [i|] eqn:Hi.
      * destruct (findIndex_Some _ _ _ Hi) as (w & Hw & Hs).
        right; right. exists i, w. auto.
      * right; left. reflexivity.
  - match goal with
    | |- context [if ?c then Throws _ else _] => destruct c
    end; simpl; [discriminate|].
    intros [= <-]. split.
    + intros p Hp. rewrite !lookup_insert_ne by congruence. reflexivity.
    + rewrite lookup_insert_eq. simpl. right; left. reflexivity.
Qed.

(** C10, as the code has it.  The call never touches the entry of another
    url.  When no entry is stored for [url] it changes nothing.  When the
    stored entry is older than the time to live at the read, the read
    unlinks it and nothing is written.  When the stored entry is fresh, the
    entry found afterwards has the same etag and the same list for every
    package other than [packageName], and the list of [packageName] differs
    in at most one record. *)
Theorem updateVulnerability_frame (ttl read written : Z) (url pkg : string)
    (v : Vulnerability) (files : store) :
  let out := updateVulnerability ttl read written url pkg v files in
  (forall url', url' <> url -> out.2 !! url' = files !! url') /\
  match files !! url with
  | None => out = (Returns tt, files)
  | Some entry =>
      if read - timestamp entry >? ttl
      then out = (Returns tt, delete url files)
      else exists entry',
             out.2 !! url = Some entry' /\ etag entry' = etag entry /\
             (forall p, p <> pkg -> data entry' !! p = data entry !! p) /\
             one_record_updated v (knownVulnerabilities (data entry) pkg)
               (knownVulnerabilities (data entry') pkg)
  end.
Proof.
  cbv zeta. unfold updateVulnerability, get.
  destruct (files !! url) as [entry|] eqn:Hurl; [|split; auto].
  destruct (read - timestamp entry >? ttl).
  - split; [|reflexivity].
    intros url' Hne. cbn [snd]. rewrite lookup_delete_ne by congruence. reflexivity.
  - destruct (updateDatabase (data entry) pkg v) as [db'|e] eqn:Hdb; simpl.
    + destruct (updateDatabase_frame _ _ _ _ Hdb) as [Hother Hone].
      split.
      * intros url' Hne. unfold set. cbn [snd].
        rewrite lookup_insert_ne by congruence. reflexivity.
      * eexists. unfold set. cbn [snd]. rewrite lookup_insert_eq.
        split; [reflexivity|]. simpl. auto.
    + split; [reflexivity|].
      exists entry. repeat split; auto. left; reflexivity.
Qed.

(** C10 as stated fails: an entry exists for the url, with an etag and with
    the list of [jquery], but it was written at time 0 and the time to live
    is 1000; the update of [lodash] at time 5000 leaves no entry at all. *)
Lemma updateVulnerability_evicts_expired_entry :
  one_entry !! db_url = Some (mkCacheEntry 0 (Some "v1") jquery_db) /\
  (updateVulnerability 1000 5000 5001 db_url "lodash" jquery_xss one_entry).2
    !! db_url = None.
Proof.
  split.
  - unfold one_entry. apply lookup_singleton_eq.
  - unfold updateVulnerability, get, one_entry.
    rewrite lookup_singleton_eq. cbn. apply lookup_delete_eq.
Qed.

End CacheFacts.

(** * Part III: further laws of the code *)

(** ** [compareVersions], the sanitiser and the two range matchers *)

Section VersionLaws.
Import JS Version Scan Manifest Samples.

Lemma compareVersions_loop_flip (aParts bParts : list number) (todo i : nat) :
  compareVersions_loop bParts aParts i todo =
  - compareVersions_loop aParts bParts i todo.
Proof.
  revert i; induction todo as [|todo IH]; intros i; simpl; [reflexivity|].
  rewrite (Z.eqb_sym (or0 (bParts !! i))).
  destruct (or0 (aParts !! i) =? or0 (bParts !! i)); simpl; [apply IH | lia].
Qed.

(** X1.  Swapping the arguments of [compareVersions] negates the result: a
    version is below another exactly when the other is above it. *)
Theorem compareVersions_antisymmetric (a b : string) :
  compareVersions b a = - compareVersions a b.
Proof.
  unfold compareVersions. rewrite Nat.max_comm. apply compareVersions_loop_flip.
Qed.

Lemma compareVersions_loop_zero (aParts bParts : list number) (todo i : nat) :
  compareVersions_loop aParts bParts i todo = 0 <->
  forall j, (i <= j < i + todo)%nat -> or0 (aParts !! j) = or0 (bParts !! j).
Proof.
  revert i; induction todo as [|todo IH]; intros i; simpl.
  - split; [intros _ j Hj; lia | reflexivity].
  - destruct (Z.eqb_spec (or0 (aParts !! i)) (or0 (bParts !! i))) as [Heq|Hne];
      simpl.
    + rewrite IH. split.
      * intros H j Hj. destruct (decide (j = i)) as [->|]; [exact Heq|].
        apply H. lia.
      * intros H j Hj. apply H. lia.
    + split; [lia|]. intros H. exfalso. apply Hne, H. lia.
Qed.

(** [compareVersions] returns 0 exactly when the two versions read the
    same at every position, a missing, empty or non-numeric component
    reading as 0: [1.2] equals [1.2.0] and [1.x] equals [1]. *)
Theorem compareVersions_zero_iff (a b : string) :
  compareVersions a b = 0 <->
  forall i, or0 (map Number (split a) !! i) = or0 (map Number (split b) !! i).
Proof.
  unfold compareVersions. rewrite compareVersions_loop_zero. split.
  - intros H i.
    destruct (decide (i < Nat.max (length (map Number (split a)))
                                  (length (map Number (split b))))%nat) as [Hi|Hi].
    + apply H. lia.
    + rewrite !lookup_ge_None_2 by lia. reflexivity.
  - intros H j _. apply H.
Qed.

Lemma cleanVersion_fixed (v : string) :
  digits_and_dots v = true -> cleanVersion v = v.
Proof.
  unfold digits_and_dots.
  induction v as [|c r IH]; cbn [all_chars cleanVersion]; intros H;
    [reflexivity|].
  apply andb_true_iff in H as [Hc Hr]. rewrite Hc, (IH Hr). reflexivity.
Qed.

Lemma cleanVersion_digits_and_dots (v : string) :
  digits_and_dots (cleanVersion v) = true.
Proof.
  unfold digits_and_dots.
  induction v as [|c r IH]; cbn [all_chars cleanVersion]; [reflexivity|].
  destruct (is_digit c || Ascii.eqb c dot)%bool eqn:Hc; [|exact IH].
  cbn [all_chars]. rewrite Hc. exact IH.
Qed.

(** X2.  The sanitiser of [scanDependencies] leaves only digits and dots,
    keeps a string of digits and dots as it is, and so changes nothing when
    applied twice; it never lengthens the version. *)
Theorem cleanVersion_sanitises (v : string) :
  digits_and_dots (cleanVersion v) = true /\
  (digits_and_dots v = true -> cleanVersion v = v) /\
  cleanVersion (cleanVersion v) = cleanVersion v /\
  (String.length (cleanVersion v) <= String.length v)%nat.
Proof.
  split; [apply cleanVersion_digits_and_dots|].
  split; [apply cleanVersion_fixed|].
  split; [apply cleanVersion_fixed, cleanVersion_digits_and_dots|].
  induction v as [|c r IH]; cbn [cleanVersion String.length]; [lia|].
  destruct (is_digit c || Ascii.eqb c dot)%bool; cbn [String.length]; lia.
Qed.

Lemma isVersionInRange_existsb (v : string) (rs : list Range) :
  isVersionInRange v (Some rs) = existsb (inRange (normalizedVersion v)) rs.
Proof. destruct rs; reflexivity. Qed.

(** A version is in range of a list of ranges exactly when it is in
    range of one range of the list; no version is in range of a missing or
    an empty list. *)
Theorem isVersionInRange_some_range (v : string) (rs : list Range) :
  (isVersionInRange v (Some rs) = true <->
   exists r, In r rs /\ isVersionInRange v (Some [r]) = true) /\
  isVersionInRange v None = false /\ isVersionInRange v (Some []) = false.
Proof.
  split; [|split; reflexivity].
  rewrite isVersionInRange_existsb, existsb_exists.
  split; intros (r & Hr & H); exists r; (split; [exact Hr|]).
  - rewrite isVersionInRange_existsb. simpl. rewrite H. reflexivity.
  - rewrite isVersionInRange_existsb in H. simpl in H.
    rewrite orb_false_r in H. exact H.
Qed.








End VersionLaws.

(** ** The dependency scan, the manifest scan and the severity filter *)

Section ScanLaws.
Import JS Version Scan Manifest Samples.

Variable moduleFindings : string -> list ScanResult.
Variable vulnerabilityDB : gmap string PackageInfo.

Local Abbreviation contributes := (contribution moduleFindings vulnerabilityDB).

Lemma scanDependency_append (found : list ScanResult) (dep : string * string) :
  scanDependency moduleFindings vulnerabilityDB found dep =
  (found ++ contributes dep)%list.
Proof.
  destruct dep as [pkg v]. unfold contribution, scanDependency.
  destruct (vulnerabilityDB !! pkg) as [[[vulns|]]|]; cbn [vulnerabilities];
    rewrite ?app_nil_l; try reflexivity.
  rewrite !(fold_left_push
    (fun vuln => isVersionInRange (cleanVersion v) (ranges vuln))
    (dependencyFinding pkg v)).
  rewrite app_nil_l, app_assoc. reflexivity.
Qed.

(** X5.  The dependency scan only appends.  The findings already collected
    stay in front untouched, and what is added comes in the order of the
    manifest, each dependency adding what it adds on its own; a manifest
    without the map adds nothing. *)
Theorem scanDependencies_appends_in_order
    (deps : list (string * string)) (found : list ScanResult) :
  scanDependencies moduleFindings vulnerabilityDB (Some deps) found =
    (found ++ flat_map contributes deps)%list /\
  scanDependencies moduleFindings vulnerabilityDB None found = found.
Proof.
  split; [|reflexivity]. unfold scanDependencies.
  revert found; induction deps as [|dep deps IH]; intros found; simpl.
  - rewrite app_nil_r. reflexivity.
  - rewrite IH, scanDependency_append, <- app_assoc. reflexivity.
Qed.

(** X6.  What one dependency adds.  A finding is added for [pkg] at version
    [v] exactly when it is the finding of a record the database holds for
    [pkg] whose ranges admit the sanitised version, or a finding of the scan
    of the package's directory; a package the database does not know adds
    the latter only. *)
Theorem contribution_sound_and_complete (pkg v : string) (r : ScanResult) :
  In r (contributes (pkg, v)) <->
  (exists vuln, In vuln (knownVulnerabilities vulnerabilityDB pkg) /\
                isVersionInRange (cleanVersion v) (ranges vuln) = true /\
                r = dependencyFinding pkg v vuln) \/
  In r (moduleFindings pkg).
Proof.
  unfold contribution, scanDependency, knownVulnerabilities.
  rewrite in_app_iff.
  assert (Hdb :
    forall found1 vulns,
      found1 = map (dependencyFinding pkg v)
                 (List.filter (fun vuln => isVersionInRange (cleanVersion v) (ranges vuln))
                    vulns) ->
      In r found1 <->
      exists vuln, In vuln vulns /\
                   isVersionInRange (cleanVersion v) (ranges vuln) = true /\
                   r = dependencyFinding pkg v vuln).
  { intros found1 vulns ->. rewrite in_map_iff. split.
    - intros (vuln & <- & Hin). apply filter_In in Hin as [Hin Hok].
      exists vuln. auto.
    - intros (vuln & Hin & Hok & ->). exists vuln. split; [reflexivity|].
      apply filter_In. auto. }
  destruct (vulnerabilityDB !! pkg) as [[[vulns|]]|]; cbn [vulnerabilities default from_option id].
  - rewrite (Hdb _ vulns); [reflexivity|].
    rewrite (fold_left_push
      (fun vuln => isVersionInRange (cleanVersion v) (ranges vuln))
      (dependencyFinding pkg v)). reflexivity.
  - rewrite (Hdb [] []) by reflexivity. reflexivity.
  - rewrite (Hdb [] []) by reflexivity. reflexivity.
Qed.

(** X7.  [scanPackageJson] is the severity filter over the dependencies
    followed by the development dependencies, which are left out under
    [ignoreDevDependencies]; a manifest that cannot be read or parsed gives
    no finding. *)
Theorem scanPackageJson_composes (ignoreDev : bool) (minSeverity : string)
    (packageJson : PackageJson) (e : exn) :
  scanPackageJson moduleFindings vulnerabilityDB ignoreDev minSeverity
    (Returns packageJson) =
  filterBySeverity minSeverity
    (flat_map contributes
       (default [] (dependencies packageJson) ++
        if ignoreDev then [] else default [] (devDependencies packageJson))) /\
  scanPackageJson moduleFindings vulnerabilityDB ignoreDev minSeverity (Throws e) = [].
Proof.
  split; [|reflexivity]. unfold scanPackageJson. f_equal.
  rewrite flat_map_app.
  assert (Hdeps : forall deps found,
    scanDependencies moduleFindings vulnerabilityDB deps found =
    (found ++ flat_map contributes (default [] deps))%list).
  { intros [deps|] found.
    - apply scanDependencies_appends_in_order.
    - simpl. rewrite app_nil_r. reflexivity. }
  rewrite (Hdeps (dependencies packageJson) []), app_nil_l.
  destruct ignoreDev; cbn [negb andb].
  - rewrite app_nil_r. reflexivity.
  - destruct (devDependencies packageJson) as [dev|].
    + rewrite bool_decide_eq_true_2 by eauto. rewrite Hdeps. reflexivity.
    + rewrite bool_decide_eq_false_2 by (intros [? [=]]).
      cbn [default from_option]. rewrite app_nil_r. reflexivity.
Qed.

End ScanLaws.

Section SeverityLaws.
Import JS Scan.

Lemma filter_filter {A} (f g : A -> bool) (xs : list A) :
  List.filter f (List.filter g xs) = List.filter (fun x => (g x && f x)%bool) xs.
Proof.
  induction xs as [|x xs IH]; simpl; [reflexivity|].
  destruct (g x); simpl; [destruct (f x)|]; rewrite IH; reflexivity.
Qed.

Lemma filter_pointwise {A} (f g : A -> bool) (xs : list A) :
  (forall x, f x = g x) -> List.filter f xs = List.filter g xs.
Proof.
  intros H; induction xs as [|x xs IH]; simpl; [reflexivity|].
  rewrite H, IH. reflexivity.
Qed.

(** X8.  Filtering twice is harmless: the filter is idempotent, two filters
    commute, and after a filter a filter with a minimum that is no stricter
    changes nothing.  [scanProject] filters findings that [scanPackageJson]
    and [scanSourceFile] have filtered already. *)
Theorem filterBySeverity_twice (m1 m2 : string) (results : list ScanResult) :
  filterBySeverity m1 (filterBySeverity m1 results) = filterBySeverity m1 results /\
  filterBySeverity m1 (filterBySeverity m2 results) =
    filterBySeverity m2 (filterBySeverity m1 results) /\
  (indexOf severityLevels m1 <= indexOf severityLevels m2 ->
   filterBySeverity m1 (filterBySeverity m2 results) = filterBySeverity m2 results).
Proof.
  unfold filterBySeverity. rewrite !filter_filter. repeat split.
  - apply filter_pointwise. intros r. apply andb_diag.
  - apply filter_pointwise. intros r. apply andb_comm.
  - intros Hle. apply filter_pointwise. intros r.
    destruct (Z.geb_spec (indexOf severityLevels (severity (vulnerability r)))
                (indexOf severityLevels m2)); simpl; [|reflexivity].
    apply Z.geb_le. lia.
Qed.

Lemma indexOf_severityLevels (s : string) :
  (indexOf severityLevels s = -1 /\ ~ In s severityLevels) \/
  (0 <= indexOf severityLevels s <= 3 /\ In s severityLevels).
Proof.
  unfold indexOf, severityLevels. cbn [indexOf_from].
  destruct (String.eqb_spec "low" s); [right; split; [lia | simpl; auto]|].
  destruct (String.eqb_spec "medium" s); [right; split; [lia | simpl; auto]|].
  destruct (String.eqb_spec "high" s); [right; split; [lia | simpl; auto]|].
  destruct (String.eqb_spec "critical" s);
    [right; split; [lia | simpl; auto 6]|].
  left. split; [reflexivity|]. intros [|[|[|[|[]]]]]; congruence.
Qed.

(** X9.  The filter at the edge of the enumeration.  A minimum that is not
    one of the four levels disables the filter: every finding is retained.
    Under a minimum that is one of the four levels, a finding whose severity
    is not one of them is dropped; and under [low] exactly the findings with
    one of the four severities are retained. *)
Theorem filterBySeverity_outside_levels (minSeverity : string)
    (results : list ScanResult) :
  (~ In minSeverity severityLevels ->
   filterBySeverity minSeverity results = results) /\
  (In minSeverity severityLevels ->
   forall r, In r (filterBySeverity minSeverity results) ->
             In (severity (vulnerability r)) severityLevels) /\
  (forall r, In r (filterBySeverity "low" results) <->
             In r results /\ In (severity (vulnerability r)) severityLevels).
Proof.
  split; [|split].
  - intros Hm. unfold filterBySeverity.
    destruct (indexOf_severityLevels minSeverity) as [[-> _]|[_ H]];
      [|contradiction].
    induction results as [|r rs IH]; simpl; [reflexivity|].
    destruct (indexOf_severityLevels (severity (vulnerability r)))
      as [[-> _]|[Hr _]]; rewrite IH.
    + reflexivity.
    + destruct (Z.geb_spec (indexOf severityLevels (severity (vulnerability r)))
                  (-1)); [reflexivity | lia].
  - intros Hm r Hr. unfold filterBySeverity in Hr.
    apply filter_In in Hr as [_ Hr]. apply Z.geb_le in Hr.
    destruct (indexOf_severityLevels minSeverity) as [[_ H]|[Hm' _]];
      [contradiction|].
    destruct (indexOf_severityLevels (severity (vulnerability r)))
      as [[Hr' _]|[_ H]]; [lia | exact H].
  - intros r. unfold filterBySeverity. rewrite filter_In, Z.geb_le.
    change (indexOf severityLevels "low") with 0.
    destruct (indexOf_severityLevels (severity (vulnerability r)))
      as [[Hr' Hn]|[Hr' Hy]]; split; intros [H1 H2]; split; auto; try lia.
    contradiction.
Qed.

End SeverityLaws.

(** ** The pattern matcher *)

Section MatcherLaws.
Import JS Ast Matcher Samples Cases.

Variable regex_valid : string -> bool.
Variable regex_test : string -> string -> bool.

Local Abbreviation matches := (matchesPattern regex_valid regex_test).
Local Abbreviation matchExpr := (matchExpressionPattern regex_valid regex_test).

(** X10.  Only three kinds of node can match a rule.  When [matchesPattern]
    answers [true] the node is a call, a member access or an assignment and
    the rule's [type] is the node's kind: a rule of any other type never
    fires. *)
Theorem matchesPattern_true_kinds (n : node) (p : pat) :
  matches n p = Returns true ->
  (type_of n = "CallExpression" \/ type_of n = "MemberExpression" \/
   type_of n = "AssignmentExpression") /\
  p_type p = type_of n.
Proof.
  unfold matchesPattern.
  match goal with |- (if ?c then _ else _) = _ -> _ => destruct c end;
    [discriminate|].
  destruct n; try discriminate; cbn [type_of].
  - unfold matchMemberExpression.
    destruct (String.eqb_spec (p_type p) "MemberExpression"); cbn [negb];
      [auto | discriminate].
  - unfold matchCallExpression, matchCallExpression_with.
    destruct (String.eqb_spec (p_type p) "CallExpression"); cbn [negb];
      [auto | discriminate].
  - unfold matchAssignmentExpression.
    destruct (String.eqb_spec (p_type p) "AssignmentExpression"); cbn [negb];
      [auto 6 | discriminate].
Qed.

(** X11.  A call rule that names a function and lists no arguments checks
    the name only when the callee is a bare identifier: it matches a call of
    that identifier, and it matches every call whose callee is anything
    else, such as a member access. *)
Theorem matchesPattern_named_call (callee : node) (args : list node)
    (p inner : pat) (name : string) :
  p_nodeType p = None -> p_type p = "CallExpression" ->
  p_pattern p = Some inner -> p_type inner = "CallExpression" ->
  p_name inner = Some name -> truthy_string name = true ->
  p_arguments inner = None ->
  matches (CallExpression callee args) p =
  Returns match callee with
          | Identifier x => String.eqb x name
          | _ => true
          end.
Proof.
  intros Hnt Hty Hin Hity Hname Htruthy Hargs.
  unfold matchesPattern, matchCallExpression, matchCallExpression_with, inner_of.
  rewrite Hnt. cbn [truthy andb]. rewrite Hty, Hin, Hity, !String.eqb_refl.
  cbn [negb]. rewrite Hargs.
  destruct callee; try reflexivity.
  rewrite Hname. cbn [truthy default from_option id]. rewrite Htruthy.
  cbn [andb]. destruct (String.eqb name0 name); reflexivity.
Qed.

(** X12.  In a nested position the name, the arguments, the object and the
    property of a call or member pattern are never read.  The matchers of
    calls and member accesses look for them in the [pattern] field, which a
    sub-pattern does not have, so a sub-pattern of type [CallExpression]
    matches every call and one of type [MemberExpression] every member
    access. *)
Theorem matchExpressionPattern_nested_call_member
    (callee : node) (args : list node) (o pr : node) (c : bool) (p : pat) :
  p_pattern p = None ->
  matchExpr (CallExpression callee args) p =
    Returns (String.eqb (p_type p) "CallExpression") /\
  matchExpr (MemberExpression o pr c) p =
    Returns (String.eqb (p_type p) "MemberExpression").
Proof.
  intros Hp. cbn [matchExpressionPattern].
  unfold matchCallExpression_with, matchMemberExpression, inner_of.
  rewrite Hp.
  destruct (String.eqb (p_type p) "CallExpression"),
           (String.eqb (p_type p) "MemberExpression"), callee; split; reflexivity.
Qed.

Lemma every_element_hole (recur : node -> pat -> outcome bool)
    (patterns : list pat) (elements : list (option node)) :
  length patterns = length elements -> In None elements ->
  every_element recur elements patterns <> Returns true.
Proof.
  revert elements; induction patterns as [|q qs IH]; intros elements Hlen Hin.
  - destruct elements; [destruct Hin | discriminate].
  - destruct elements as [|e es]; [destruct Hin|]. injection Hlen as Hlen.
    cbn [every_element]. destruct e as [n|]; [|discriminate].
    destruct Hin as [|Hin]; [discriminate|].
    destruct (recur n q) as [[|]|]; cbn [bind]; try discriminate.
    apply IH; assumption.
Qed.

(** X13.  An array with a hole never matches a rule that lists element
    patterns. *)
Theorem matchArrayPattern_hole (elements : list (option node)) (p : pat)
    (patterns : list pat) :
  p_elements p = Some patterns -> In None elements ->
  matchArrayPattern regex_valid regex_test elements p <> Returns true.
Proof.
  intros Hp Hin. unfold matchArrayPattern, matchArrayPattern_with. rewrite Hp.
  destruct (negb (String.eqb (p_type p) "ArrayExpression")); [discriminate|].
  destruct (Nat.eqb_spec (length patterns) (length elements)); cbn [negb];
    [|discriminate].
  apply every_element_hole; assumption.
Qed.

Lemma some_app_true {A} (f : A -> outcome bool) (xs ys : list A) :
  some f xs = Returns true -> some f (xs ++ ys) = Returns true.
Proof.
  induction xs as [|x xs IH]; simpl; [discriminate|].
  destruct (f x) as [[|]|]; simpl; auto.
Qed.

(** X14.  Matching an object is monotone in the object: when a list of
    properties matches a rule, the list followed by further properties
    matches it too. *)
Theorem matchObjectPattern_more_properties (properties more : list node) (p : pat) :
  matchObjectPattern regex_valid regex_test properties p = Returns true ->
  matchObjectPattern regex_valid regex_test (properties ++ more) p = Returns true.
Proof.
  unfold matchObjectPattern, matchObjectPattern_with.
  destruct (negb (String.eqb (p_type p) "ObjectExpression")); [discriminate|].
  destruct (p_properties p); [apply some_app_true | reflexivity].
Qed.

End MatcherLaws.

Section MatcherLawsExamples.
Import JS Ast Matcher Samples Cases.

Lemma matchesPattern_named_call_witness :
  p_nodeType eval_any = None /\ p_type eval_any = "CallExpression" /\
  p_pattern eval_any =
    Some (Pat "CallExpression" None None None (Some "eval") None None None
            None None None None None None) /\
  truthy_string "eval" = true /\
  matchesPattern plain_valid plain_test window_eval_x eval_any = Returns true.
Proof.
  do 4 (split; [reflexivity|]).
  exact (matchesPattern_named_call plain_valid plain_test _ _ eval_any _ "eval"
           eq_refl eq_refl eq_refl eq_refl eq_refl eq_refl eq_refl).
Defined.

Lemma matchExpressionPattern_nested_call_member_witness :
  p_pattern nested_eval = None /\
  matchExpressionPattern plain_valid plain_test
    (CallExpression (Identifier "alert") [Literal (VString "x")]) nested_eval =
    Returns (String.eqb (p_type nested_eval) "CallExpression") /\
  matchExpressionPattern plain_valid plain_test
    (MemberExpression (Identifier "a") (Identifier "b") false) nested_eval =
    Returns (String.eqb (p_type nested_eval) "MemberExpression").
Proof.
  split; [reflexivity|].
  exact (matchExpressionPattern_nested_call_member plain_valid plain_test
           _ _ _ _ _ nested_eval eq_refl).
Defined.

Lemma matchArrayPattern_hole_witness :
  p_elements one_two_pattern = Some one_two_patterns /\ In None one_hole /\
  matchArrayPattern plain_valid plain_test one_hole one_two_pattern <> Returns true.
Proof.
  assert (Hin : In None one_hole) by (right; left; reflexivity).
  split; [reflexivity|]. split; [exact Hin|].
  exact (matchArrayPattern_hole plain_valid plain_test one_hole one_two_pattern
           one_two_patterns eq_refl Hin).
Defined.

Lemma matchObjectPattern_more_properties_witness :
  matchObjectPattern plain_valid plain_test a1_b2 a1_c3 = Returns true /\
  matchObjectPattern plain_valid plain_test
    (a1_b2 ++ [SpreadElement (Identifier "rest")]) a1_c3 = Returns true.
Proof.
  split; [reflexivity|].
  exact (matchObjectPattern_more_properties plain_valid plain_test a1_b2
           [SpreadElement (Identifier "rest")] a1_c3 eq_refl).
Defined.

Lemma matchesPattern_true_kinds_witness :
  matchesPattern plain_valid plain_test
    eval_x (eval_rule "x") = Returns true /\
  (type_of eval_x = "CallExpression" \/
   type_of eval_x = "MemberExpression" \/
   type_of eval_x = "AssignmentExpression") /\
  p_type (eval_rule "x") = type_of eval_x.
Proof.
  split; [reflexivity|].
  exact (matchesPattern_true_kinds plain_valid plain_test
           eval_x (eval_rule "x") eq_refl).
Defined.

End MatcherLawsExamples.


(** ** The data-flow graph and its queries *)

Section FlowLaws.
Import JS Ast DataFlow Flow Samples Cases.

Lemma map_set_Forall {V} (P : string * V -> Prop) (g : jsmap V) (k : string) (v : V) :
  Forall P g -> P (k, v) -> Forall P (map_set g k v).
Proof.
  intros Hg Hkv. induction g as [|[k' v'] g IH]; simpl.
  - repeat constructor. exact Hkv.
  - inversion Hg; subst. destruct (String.eqb_spec k' k) as [->|].
    + constructor; assumption.
    + constructor; auto.
Qed.

Lemma enter_plain (n : node) (g : graph) :
  Forall plain_edge g -> Forall plain_edge (enter n g).
Proof.
  intros Hg. destruct n; cbn [enter]; try exact Hg.
  - unfold trackAssignment.
    destruct (truthy (getNodeId n1) && truthy (getNodeId n2))%bool eqn:Ht;
      [|exact Hg].
    apply andb_true_iff in Ht as [Ht Hs].
    apply map_set_Forall; [exact Hg|].
    destruct (getNodeId n1) as [t|]; [|discriminate].
    repeat split; auto; discriminate.
  - unfold trackVariableDeclaration.
    match goal with
    | |- context [if (truthy ?a && truthy ?b)%bool then _ else _] =>
        destruct (truthy a && truthy b)%bool eqn:Ht; [|exact Hg];
        apply andb_true_iff in Ht as [Ht Hs];
        apply map_set_Forall; [exact Hg|];
        destruct a as [t|]; [|discriminate]
    end.
    repeat split; auto; discriminate.
Qed.

Lemma fold_enter_plain (nodes : list node) (g : graph) :
  Forall plain_edge g ->
  Forall plain_edge (fold_left (fun g n => enter n g) nodes g).
Proof.
  revert g; induction nodes as [|n nodes IH]; intros g Hg; simpl; [exact Hg|].
  apply IH, enter_plain, Hg.
Qed.

(** X15.  No call ever enters the graph.  [trackFunctionCall] asks for the
    id of the call expression itself, which has none, so it records
    nothing: every edge of the graph of a file comes from an assignment or a
    declaration, has a non-empty key and a non-empty source, and has no
    argument list. *)
Theorem buildDataFlowGraph_plain_edges (ast : node) :
  Forall plain_edge (buildDataFlowGraph ast) /\
  (forall callee args g,
     trackFunctionCall (CallExpression callee args) callee args g = g).
Proof.
  split; [apply fold_enter_plain; constructor | reflexivity].
Qed.

Lemma map_get_map_set {V} (g : jsmap V) (k k' : string) (v : V) :
  map_get (map_set g k v) k' = if String.eqb k k' then Some v else map_get g k'.
Proof.
  induction g as [|[k0 v0] g IH]; simpl.
  - reflexivity.
  - destruct (String.eqb_spec k0 k) as [->|Hne]; simpl.
    + destruct (String.eqb k k'); reflexivity.
    + rewrite IH. destruct (String.eqb_spec k0 k') as [->|]; [|reflexivity].
      destruct (String.eqb_spec k k'); [congruence | reflexivity].
Qed.

Lemma map_set_keys {V} (g : jsmap V) (k : string) (v : V) :
  map fst (map_set g k v) =
  if existsb (String.eqb k) (map fst g) then map fst g else (map fst g ++ [k])%list.
Proof.
  induction g as [|[k0 v0] g IH]; simpl; [reflexivity|].
  rewrite (String.eqb_sym k k0).
  destruct (String.eqb k0 k); simpl; [reflexivity|].
  rewrite IH. destruct (existsb (String.eqb k) (map fst g)); reflexivity.
Qed.

Lemma existsb_eqb_In (x : string) (xs : list string) :
  existsb (String.eqb x) xs = true <-> In x xs.
Proof.
  rewrite existsb_exists. split.
  - intros (y & Hy & Heq). apply String.eqb_eq in Heq. subst. exact Hy.
  - intros H. exists x. split; [exact H | apply String.eqb_refl].
Qed.

Lemma map_set_NoDup {V} (g : jsmap V) (k : string) (v : V) :
  NoDup (map fst g) -> NoDup (map fst (map_set g k v)).
Proof.
  intros Hg. rewrite map_set_keys.
  destruct (existsb (String.eqb k) (map fst g)) eqn:Hk; [exact Hg|].
  apply NoDup_app. split; [exact Hg|]. split.
  - intros x Hx [->|[]]%list_elem_of_In.
    apply list_elem_of_In, existsb_eqb_In in Hx. congruence.
  - repeat constructor. intros []%list_elem_of_In.
Qed.

(** X16.  The last write wins and touches one key.  After an assignment
    both sides of which have an id, the target's edge is the assignment from
    the source, whatever edge the target had; the edge of every other key is
    as before, and the keys of the graph stay distinct. *)
Theorem trackAssignment_last_write (lhs rhs : node) (g : graph) (t s : string) :
  getNodeId lhs = Some t -> getNodeId rhs = Some s ->
  truthy_string t = true -> truthy_string s = true ->
  map_get (trackAssignment lhs rhs g) t = Some (mkDataFlow assignment (Some s) None) /\
  (forall k, k <> t -> map_get (trackAssignment lhs rhs g) k = map_get g k) /\
  (NoDup (map fst g) -> NoDup (map fst (trackAssignment lhs rhs g))).
Proof.
  intros Hl Hr Ht Hs. unfold trackAssignment. rewrite Hl, Hr.
  cbn [truthy default from_option id]. rewrite Ht, Hs. cbn [andb].
  split; [|split].
  - rewrite map_get_map_set, String.eqb_refl. reflexivity.
  - intros k Hk. rewrite map_get_map_set.
    destruct (String.eqb_spec t k); [congruence | reflexivity].
  - apply map_set_NoDup.
Qed.

Lemma trackAssignment_last_write_witness :
  getNodeId (Identifier "b") = Some "b" /\ getNodeId a_b_c = Some "a.b.c" /\
  truthy_string "b" = true /\ truthy_string "a.b.c" = true /\
  map_get (trackAssignment (Identifier "b") a_b_c b_from_c) "b" =
    Some (mkDataFlow assignment (Some "a.b.c") None) /\
  (forall k, k <> "b" ->
     map_get (trackAssignment (Identifier "b") a_b_c b_from_c) k =
     map_get b_from_c k) /\
  (NoDup (map fst b_from_c) ->
   NoDup (map fst (trackAssignment (Identifier "b") a_b_c b_from_c))).
Proof.
  do 4 (split; [reflexivity|]).
  exact (trackAssignment_last_write (Identifier "b") a_b_c b_from_c "b" "a.b.c"
           eq_refl eq_refl eq_refl eq_refl).
Defined.

Lemma enter_NoDup (n : node) (g : graph) :
  NoDup (map fst g) -> NoDup (map fst (enter n g)).
Proof.
  intros Hg. destruct n; cbn [enter]; try exact Hg.
  - unfold trackAssignment.
    destruct (truthy (getNodeId n1) && truthy (getNodeId n2))%bool;
      [apply map_set_NoDup|]; exact Hg.
  - unfold trackVariableDeclaration.
    match goal with
    | |- context [if ?c then _ else _] => destruct c
    end; [apply map_set_NoDup|]; exact Hg.
Qed.

Lemma map_get_In {V} (g : jsmap V) (k : string) (v : V) :
  NoDup (map fst g) -> (In (k, v) g <-> map_get g k = Some v).
Proof.
  induction g as [|[k0 v0] g IH]; simpl; intros Hg.
  - split; [intros [] | discriminate].
  - apply NoDup_cons in Hg as [Hk0 Hg].
    destruct (String.eqb_spec k0 k) as [->|Hne].
    + split.
      * intros [[= ->]|Hin]; [reflexivity|].
        exfalso. apply Hk0, list_elem_of_In, in_map_iff. exists (k, v). auto.
      * intros [= ->]. left; reflexivity.
    + rewrite <- (IH Hg). split; [intros [[= -> ->]|]; [congruence | assumption] | auto].
Qed.

(** One edge per id.  The keys of the graph of a file are distinct,
    so an edge is in the graph exactly when looking up its key finds it. *)
Theorem buildDataFlowGraph_one_edge_per_id (ast : node) :
  NoDup (map fst (buildDataFlowGraph ast)) /\
  (forall id flow,
     In (id, flow) (buildDataFlowGraph ast) <->
     map_get (buildDataFlowGraph ast) id = Some flow).
Proof.
  assert (H : NoDup (map fst (buildDataFlowGraph ast))).
  { unfold buildDataFlowGraph. generalize (preorder ast). intros nodes.
    assert (Hgen : forall g : graph, NoDup (map fst g) ->
              NoDup (map fst (fold_left (fun g n => enter n g) nodes g))).
    { induction nodes as [|n nodes IH]; intros g Hg; simpl; [exact Hg|].
      apply IH, enter_NoDup, Hg. }
    apply Hgen. constructor. }
  split; [exact H|]. intros id flow. apply map_get_In, H.
Qed.

(** *** [getDataFlowSources] *)

Lemma getDataFlowSources_fuel_le (g : graph) (fuel fuel' : nat) (flow : DataFlow)
    (sources : list string) :
  (fuel <= fuel')%nat ->
  getDataFlowSources fuel g flow = Some sources ->
  getDataFlowSources fuel' g flow = Some sources.
Proof.
  intros Hle H. induction Hle as [|fuel' _ IH]; [exact H|].
  apply getDataFlowSources_more_fuel, IH.
Qed.

(** X17.  When the source query returns.  [getDataFlowSources] returns
    within a given depth of calls exactly when following the sources from
    the edge leaves the graph within that many edges; on a chain that comes
    back on itself it returns for no depth. *)
Theorem getDataFlowSources_returns_iff (g : graph) (flow : DataFlow) (fuel : nat) :
  (exists sources, getDataFlowSources fuel g flow = Some sources) <->
  exists n, (n <= fuel)%nat /\ ends g flow n.
Proof.
  split.
  - revert flow. induction fuel as [|fuel IH]; intros flow [sources H];
      [discriminate|].
    simpl in H. destruct (truthy (source flow)) eqn:Ht.
    + cbv zeta in H.
      destruct (map_get g (default "" (source flow))) as [next|] eqn:Hnext.
      * destruct (getDataFlowSources fuel g next) as [more|] eqn:Hmore;
          [|discriminate].
        destruct (IH next (ex_intro _ more Hmore)) as (n & Hn & Hends).
        exists (S n). split; [lia|]. eapply ends_step; eauto.
      * exists 1%nat. split; [lia|]. apply ends_outside; assumption.
    + exists 1%nat. split; [lia|]. apply ends_no_source; assumption.
  - intros (n & Hn & Hends).
    assert (Hex : exists sources, getDataFlowSources n g flow = Some sources).
    { clear Hn. induction Hends as [flow Ht|flow Ht Hout|flow next n Ht Hnext _ IH];
        simpl.
      - rewrite Ht. eauto.
      - rewrite Ht, Hout. eauto.
      - rewrite Ht, Hnext. destruct IH as [more ->]. eauto. }
    destruct Hex as [sources H]. exists sources.
    eapply getDataFlowSources_fuel_le; eauto.
Qed.

Lemma uniq_from_In (seen xs : list string) (x : string) :
  In x (uniq_from seen xs) <-> In x xs /\ ~ In x seen.
Proof.
  revert seen; induction xs as [|y ys IH]; intros seen; simpl.
  - tauto.
  - destruct (existsb (String.eqb y) seen) eqn:Hy.
    + apply existsb_eqb_In in Hy. rewrite IH. split.
      * intros [H1 H2]. auto.
      * intros [[<-|H1] H2]; [contradiction | auto].
    + assert (Hn : ~ In y seen).
      { intros Hin. apply existsb_eqb_In in Hin. congruence. }
      simpl. rewrite IH. simpl. split.
      * intros [<-|[H1 H2]]; [auto|]. split; [auto|]. intros H. apply H2. auto.
      * intros [[<-|H1] H2]; [auto|].
        destruct (String.eqb_spec y x) as [->|Hne]; [auto|].
        right. split; [exact H1|]. intros [|]; [congruence | contradiction].
Qed.

Lemma uniq_from_NoDup (seen xs : list string) : NoDup (uniq_from seen xs).
Proof.
  revert seen; induction xs as [|y ys IH]; intros seen; simpl; [constructor|].
  destruct (existsb (String.eqb y) seen); [apply IH|].
  apply NoDup_cons. split; [|apply IH].
  intros Hin%list_elem_of_In%uniq_from_In. destruct Hin as [_ Hn].
  apply Hn. left; reflexivity.
Qed.

Lemma uniq_In (xs : list string) (x : string) : In x (uniq xs) <-> In x xs.
Proof. unfold uniq. rewrite uniq_from_In. simpl. tauto. Qed.

(** X18.  What the source query returns.  The list has no duplicate and no
    empty id; it starts with the source of the edge, and it is empty
    exactly when the edge has no source. *)
Theorem getDataFlowSources_result (g : graph) (fuel : nat) (flow : DataFlow) :
  match getDataFlowSources fuel g flow with
  | Some sources =>
      NoDup sources /\
      (forall x, In x sources -> truthy_string x = true) /\
      head sources = (if truthy (source flow) then source flow else None)
  | None => True
  end.
Proof.
  revert flow; induction fuel as [|fuel IH]; intros flow; simpl; [exact I|].
  destruct (truthy (source flow)) eqn:Ht; cbv zeta.
  - destruct (source flow) as [s|] eqn:Hs; [|discriminate].
    cbn [default from_option id]. simpl in Ht.
    destruct (map_get g s) as [next|].
    + specialize (IH next).
      destruct (getDataFlowSources fuel g next) as [more|]; [|exact I].
      destruct IH as (_ & Hmore & _).
      split; [apply uniq_from_NoDup|]. split; [|reflexivity].
      intros x Hx. apply (uniq_In (s :: more)) in Hx.
      destruct Hx as [<-|Hx]; auto.
    + split; [apply uniq_from_NoDup|]. split; [|reflexivity].
      intros x Hx. apply (uniq_In [s]) in Hx.
      destruct Hx as [<-|[]]; auto.
  - split; [constructor|]. split; [intros x []|reflexivity].
Qed.

(** *** [findDataFlowSinks] *)

Lemma sinks_loop_result (recur : string -> option (list string)) (nodeId : string)
    (keys : list string) (entries : list (string * DataFlow)) :
  (forall id r, recur id = Some r -> forall x, In x r -> In x keys) ->
  (forall e, In e entries -> In e.1 keys) ->
  forall sinks r,
    (forall x, In x sinks -> In x keys) ->
    sinks_loop recur nodeId entries sinks = Some r ->
    NoDup r /\ forall x, In x r -> In x keys.
Proof.
  intros Hrecur. induction entries as [|[id flow] rest IH];
    intros Hentries sinks r Hsinks; simpl.
  - intros [= <-]. split; [apply uniq_from_NoDup|].
    intros x Hx. apply (uniq_In sinks) in Hx. auto.
  - assert (Hrest : forall e, In e rest -> In e.1 keys)
      by (intros e He; apply Hentries; right; exact He).
    destruct (flows_from nodeId flow).
    + destruct (recur id) as [more|] eqn:Hmore; [|discriminate].
      apply IH; [exact Hrest|].
      intros x [Hx|[<-|Hx]]%in_app_iff; auto.
      * apply (Hentries (id, flow)). left; reflexivity.
      * eapply Hrecur; eauto.
    + apply IH; assumption.
Qed.

Lemma sinks_loop_skip (recur : string -> option (list string)) (nodeId : string)
    (entries : list (string * DataFlow)) (sinks : list string) :
  (forall e, In e entries -> flows_from nodeId e.2 = false) ->
  sinks_loop recur nodeId entries sinks = Some (uniq sinks).
Proof.
  induction entries as [|[id flow] rest IH]; intros H; simpl; [reflexivity|].
  pose proof (H (id, flow) (or_introl eq_refl)) as Hflow. cbn [snd] in Hflow.
  rewrite Hflow. apply IH. intros e He. apply H. right; exact He.
Qed.

(** X19.  What the sink query returns.  When [findDataFlowSinks] returns,
    its list has no duplicate and holds keys of the graph only; and for an
    id from which no edge flows it returns the empty list at the first
    call. *)
Theorem findDataFlowSinks_result (g : graph) (fuel : nat) (nodeId : string) :
  match findDataFlowSinks fuel g nodeId with
  | Some sinks => NoDup sinks /\ forall x, In x sinks -> In x (map fst g)
  | None => True
  end /\
  ((forall e, In e g -> flows_from nodeId e.2 = false) ->
   findDataFlowSinks (S fuel) g nodeId = Some []).
Proof.
  split.
  - revert nodeId; induction fuel as [|fuel IH]; intros nodeId; simpl;
      [exact I|].
    destruct (sinks_loop (findDataFlowSinks fuel g) nodeId g []) as [r|] eqn:Hr;
      [|exact I].
    apply (sinks_loop_result (findDataFlowSinks fuel g) nodeId (map fst g) g)
      with (sinks := []); auto.
    + intros id r' Hr'. specialize (IH id). rewrite Hr' in IH. apply IH.
    + intros e He. apply in_map, He.
    + intros x [].
  - intros H. simpl. rewrite sinks_loop_skip by exact H. reflexivity.
Qed.

End FlowLaws.

(** ** The worker pool *)

Section PoolLaws.
Import JS Scan Parallel Pool Samples Cases.

Lemma settle_buffers (w : nat) (to : promise) (p : pool) :
  buffers (settle w to p) = buffers p.
Proof. unfold settle. destruct (promises p !! w) as [[]|]; reflexivity. Qed.

Lemma handle_buffers (p : pool) (ev : event) (w : nat) :
  buffers (handle p ev) !! w =
  (fun b => b ++ posted w ev)%list <$> buffers p !! w.
Proof.
  assert (Hid : forall o : option (list ScanResult),
            o = (fun b => b ++ [])%list <$> o).
  { intros [b|]; simpl; [rewrite app_nil_r|]; reflexivity. }
  destruct ev as [w' [data|file|e file]|w' e|w' code]; simpl;
    rewrite ?settle_buffers; try apply Hid.
  destruct (Nat.eqb_spec w' w) as [->|Hne].
  - apply list_lookup_alter_eq.
  - rewrite list_lookup_alter_ne by exact Hne. apply Hid.
Qed.

Lemma fold_handle_buffers (trace : list event) (p : pool) (w : nat) :
  buffers (fold_left handle trace p) !! w =
  (fun b => b ++ posted_results w trace)%list <$> buffers p !! w.
Proof.
  revert p; induction trace as [|ev trace IH]; intros p; simpl.
  - destruct (buffers p !! w); simpl; [rewrite app_nil_r|]; reflexivity.
  - rewrite IH, handle_buffers.
    destruct (buffers p !! w); simpl; [rewrite <- app_assoc|]; reflexivity.
Qed.

Lemma lookup_map_seq {A} (f : nat -> A) (n w : nat) :
  (w < n)%nat -> map f (seq 0 n) !! w = Some (f w).
Proof.
  intros Hw. induction n as [|n IH]; [lia|].
  rewrite seq_S, map_app. simpl.
  destruct (decide (w = n)) as [->|Hne].
  - rewrite lookup_app_r by (rewrite length_map, length_seq; lia).
    rewrite length_map, length_seq, Nat.sub_diag. reflexivity.
  - rewrite lookup_app_l by (rewrite length_map, length_seq; lia).
    apply IH. lia.
Qed.

Lemma scan_buffers (n : nat) (trace : list event) :
  buffers (fold_left handle trace
             (mkPool (replicate n []) (replicate n Pending) 0 None)) =
  map (fun w => posted_results w trace) (seq 0 n).
Proof.
  apply list_eq. intros w. rewrite fold_handle_buffers. simpl.
  destruct (decide (w < n)%nat) as [Hw|Hw].
  - rewrite lookup_replicate_2, lookup_map_seq by exact Hw. reflexivity.
  - rewrite !lookup_ge_None_2; [reflexivity| |].
    + rewrite length_map, length_seq; lia.
    + rewrite length_replicate; lia.
Qed.

Lemma handle_promises_length (p : pool) (ev : event) :
  length (promises (handle p ev)) = length (promises p).
Proof.
  destruct ev as [w [data|file|e file]|w e|w code]; simpl; try reflexivity;
    unfold settle; destruct (promises p !! w) as [[]|]; simpl;
    rewrite ?length_insert; reflexivity.
Qed.

Lemma fold_handle_promises_length (trace : list event) (p : pool) :
  length (promises (fold_left handle trace p)) = length (promises p).
Proof.
  revert p; induction trace as [|ev trace IH]; intros p; simpl; [reflexivity|].
  rewrite IH. apply handle_promises_length.
Qed.

Lemma settle_lookup (w : nat) (to : promise) (p : pool) (w' : nat) :
  (w = w' /\ promises p !! w = Some Pending /\
   promises (settle w to p) !! w' = Some to) \/
  (promises (settle w to p) !! w' = promises p !! w' /\
   (w = w' -> promises p !! w <> Some Pending)).
Proof.
  unfold settle. destruct (promises p !! w) as [[]|] eqn:Hw; simpl;
    try (right; split; [reflexivity | intros _; discriminate]).
  destruct (Nat.eq_dec w w') as [<-|Hne].
  - left. rewrite list_lookup_insert_eq by (eapply lookup_lt_Some; eauto). auto.
  - right. rewrite list_lookup_insert_ne by exact Hne. auto.
Qed.

Ltac settle_cases :=
  match goal with
  | |- context [promises (settle ?a ?t ?q) !! ?b] =>
      destruct (settle_lookup a t q b) as [(-> & ? & ->)|[-> ?]]
  end.

Lemma handle_resolved_origin (p : pool) (ev : event) (w : nat) :
  promises (handle p ev) !! w = Some Resolved ->
  promises p !! w = Some Resolved \/ ev = on_exit w 0.
Proof.
  destruct ev as [w' [data|file|e file]|w' e|w' code]; simpl; auto;
    settle_cases; auto.
  - discriminate.
  - destruct (Z.eqb_spec code 0) as [->|]; simpl; [auto | discriminate].
Qed.

Lemma fold_handle_resolved_origin (trace : list event) (p : pool) (w : nat) :
  promises (fold_left handle trace p) !! w = Some Resolved ->
  promises p !! w = Some Resolved \/ In (on_exit w 0) trace.
Proof.
  revert p; induction trace as [|ev trace IH]; intros p; simpl; auto.
  intros H. apply IH in H as [H|H]; [|auto].
  apply handle_resolved_origin in H as [H| ->]; auto.
Qed.

Lemma handle_resolved_stays (p : pool) (ev : event) (w : nat) :
  promises p !! w = Some Resolved -> promises (handle p ev) !! w = Some Resolved.
Proof.
  intros H. destruct ev as [w' [data|file|e file]|w' e|w' code]; simpl; auto;
    settle_cases; auto; congruence.
Qed.

Lemma handle_benign_failure (p : pool) (ev : event) :
  benign ev = true -> failure (handle p ev) = failure p.
Proof.
  destruct ev as [w [data|file|e file]|w e|w code]; unfold benign; simpl;
    try reflexivity; try discriminate.
  destruct (negb (code =? 0)); [discriminate|]. intros _.
  unfold settle. destruct (promises p !! w) as [[]|]; simpl; try reflexivity.
  destruct (failure p); reflexivity.
Qed.

Lemma fold_handle_benign_failure (trace : list event) (p : pool) :
  forallb benign trace = true -> failure (fold_left handle trace p) = failure p.
Proof.
  revert p; induction trace as [|ev trace IH]; intros p H; simpl; [reflexivity|].
  simpl in H. apply andb_true_iff in H as [Hev Htrace].
  rewrite IH by exact Htrace. apply handle_benign_failure, Hev.
Qed.

Lemma handle_benign_open (p : pool) (ev : event) (w : nat) :
  benign ev = true ->
  promises p !! w = Some Pending \/ promises p !! w = Some Resolved ->
  promises (handle p ev) !! w = Some Pending \/
  promises (handle p ev) !! w = Some Resolved.
Proof.
  intros Hev [H|H]; [|right; apply handle_resolved_stays, H].
  destruct ev as [w' [data|file|e file]|w' e|w' code]; unfold benign in Hev;
    simpl in *; auto; try discriminate.
  settle_cases; [|auto].
  destruct (negb (code =? 0)); [discriminate | auto].
Qed.

Lemma handle_benign_pending (p : pool) (ev : event) (w : nat) :
  benign ev = true -> ev <> on_exit w 0 ->
  promises p !! w = Some Pending -> promises (handle p ev) !! w = Some Pending.
Proof.
  intros Hev Hne H.
  destruct ev as [w' [data|file|e file]|w' e|w' code]; unfold benign in Hev;
    simpl in *; auto; try discriminate.
  settle_cases; [|auto].
  destruct (Z.eqb_spec code 0) as [->|]; simpl in *; [congruence | discriminate].
Qed.

Lemma fold_handle_benign_pending (trace : list event) (p : pool) (w : nat) :
  forallb benign trace = true -> ~ In (on_exit w 0) trace ->
  promises p !! w = Some Pending ->
  promises (fold_left handle trace p) !! w = Some Pending.
Proof.
  revert p; induction trace as [|ev trace IH]; intros p Hb Hn H; simpl; auto.
  simpl in Hb. apply andb_true_iff in Hb as [Hev Htrace].
  apply IH; [exact Htrace | intros Hin; apply Hn; right; exact Hin |].
  apply handle_benign_pending; auto.
  intros ->. apply Hn. left; reflexivity.
Qed.

Lemma fold_handle_resolved_stays (trace : list event) (p : pool) (w : nat) :
  promises p !! w = Some Resolved ->
  promises (fold_left handle trace p) !! w = Some Resolved.
Proof.
  revert p; induction trace as [|ev trace IH]; intros p H; simpl; auto.
  apply IH, handle_resolved_stays, H.
Qed.

Lemma fold_handle_resolves (trace : list event) (p : pool) (w : nat) :
  forallb benign trace = true -> In (on_exit w 0) trace ->
  promises p !! w = Some Pending \/ promises p !! w = Some Resolved ->
  promises (fold_left handle trace p) !! w = Some Resolved.
Proof.
  revert p; induction trace as [|ev trace IH]; intros p Hb Hin H; simpl;
    [destruct Hin|].
  simpl in Hb. apply andb_true_iff in Hb as [Hev Htrace].
  destruct Hin as [->|Hin].
  - apply fold_handle_resolved_stays.
    destruct H as [H|H]; [|apply handle_resolved_stays, H].
    simpl. destruct (settle_lookup w Resolved p w) as [(_ & _ & ->)|[_ Hn]];
      [reflexivity | contradiction (Hn eq_refl H)].
  - apply IH; auto. apply handle_benign_open; auto.
Qed.

Lemma posted_events_of (w : nat) (trace : list event) :
  posted_results w (events_of w trace) = posted_results w trace.
Proof.
  unfold posted_results, events_of.
  induction trace as [|ev trace IH]; simpl; [reflexivity|].
  destruct (Nat.eqb_spec (worker_of ev) w) as [Heq|Hne]; simpl; rewrite IH;
    [reflexivity|].
  destruct ev as [w' [data|file|e file]|w' e|w' code]; simpl in *;
    try reflexivity.
  destruct (Nat.eqb_spec w' w); [contradiction | reflexivity].
Qed.

Lemma posted_clean_run (scan : string -> outcome (list ScanResult)) (w : nat)
    (chunk : list string) :
  posted_results w (clean_run scan w chunk) = flat_map (file_results scan) chunk.
Proof.
  unfold clean_run, posted_results. rewrite run_messages.
  rewrite map_app, !flat_map_app. simpl. rewrite Nat.eqb_refl, !app_nil_r.
  assert (H : flat_map (posted w)
                (map (on_message w) (map (file_message scan) chunk)) = []).
  { induction chunk as [|file chunk IH]; simpl; [reflexivity|].
    rewrite IH. unfold file_message. destruct (scan file); reflexivity. }
  rewrite H. reflexivity.
Qed.

(** X20.  What a resolved scan holds.  When [scanInParallel] resolves, its
    result is, worker by worker in the order of the workers, what each
    worker posted in [result] messages; and every worker has exited with
    code 0. *)
Theorem scanInParallel_resolved (numWorkers : nat) (trace : list event)
    (results : list ScanResult) :
  scanInParallel numWorkers trace = scanResolved results ->
  results = flat_map (fun w => posted_results w trace) (seq 0 numWorkers) /\
  forall w, (w < numWorkers)%nat -> In (on_exit w 0) trace.
Proof.
  unfold scanInParallel. cbv zeta.
  set (start := mkPool _ _ _ _).
  destruct (failure (fold_left handle trace start)); [discriminate|].
  destruct (forallb is_resolved (promises (fold_left handle trace start)))
    eqn:Hall; [|discriminate].
  intros [= <-]. split.
  - unfold start. rewrite scan_buffers, flat_map_concat_map. reflexivity.
  - intros w Hw.
    assert (Hlen : (w < length (promises (fold_left handle trace start)))%nat).
    { rewrite fold_handle_promises_length. simpl. rewrite length_replicate.
      exact Hw. }
    apply lookup_lt_is_Some in Hlen as [pr Hpr].
    assert (Hres : is_resolved pr = true).
    { rewrite forallb_forall in Hall. apply Hall.
      apply list_elem_of_In. eapply list_elem_of_lookup_2, Hpr. }
    destruct pr; try discriminate.
    apply fold_handle_resolved_origin in Hpr as [Hpr|Hin]; [|exact Hin].
    simpl in Hpr. rewrite lookup_replicate_2 in Hpr by exact Hw. discriminate.
Qed.

Lemma scanInParallel_resolved_witness :
  scanInParallel 2 interleaved = scanResolved [good_finding] /\
  [good_finding] = flat_map (fun w => posted_results w interleaved) (seq 0 2) /\
  forall w, (w < 2)%nat -> In (on_exit w 0) interleaved.
Proof.
  split; [reflexivity|].
  apply (scanInParallel_resolved 2 interleaved [good_finding]). reflexivity.
Defined.

(** X21.  The first rejection wins.  While only messages and exits with
    code 0 have been handled, the first [error] event or exit with another
    code of a worker that has not exited yet rejects the scan with that
    reason, whatever the workers do afterwards. *)
Theorem scanInParallel_first_rejection (numWorkers : nat) (ev : event)
    (why : rejection) (before after : list event) :
  (worker_of ev < numWorkers)%nat ->
  rejection_of ev = Some why ->
  forallb benign before = true ->
  ~ In (on_exit (worker_of ev) 0) before ->
  scanInParallel numWorkers (before ++ ev :: after) = scanRejected why.
Proof.
  intros Hw Hwhy Hbefore Hopen. unfold scanInParallel. cbv zeta.
  set (start := mkPool _ _ _ _).
  rewrite fold_left_app.
  change (fold_left handle (ev :: after) (fold_left handle before start))
    with (fold_left handle after (handle (fold_left handle before start) ev)).
  assert (Hf : failure (fold_left handle before start) = None)
    by (rewrite fold_handle_benign_failure by exact Hbefore; reflexivity).
  assert (Hp : promises (fold_left handle before start) !! worker_of ev =
               Some Pending).
  { apply fold_handle_benign_pending; auto.
    simpl. apply lookup_replicate_2, Hw. }
  assert (Hfail : failure (handle (fold_left handle before start) ev) = Some why).
  { destruct ev as [w [data|file|e file]|w e|w code]; simpl in *;
      try discriminate.
    - injection Hwhy as <-. unfold settle. rewrite Hp. simpl. rewrite Hf.
      reflexivity.
    - destruct (negb (code =? 0)); [|discriminate].
      injection Hwhy as <-. unfold settle. rewrite Hp. simpl. rewrite Hf.
      reflexivity. }
  rewrite (fold_handle_keeps_failure _ _ _ Hfail). reflexivity.
Qed.

Lemma scanInParallel_first_rejection_witness :
  scanInParallel 2
    ([on_message 0 (result [good_finding]); on_exit 0 0] ++
     on_error 1 RangeError :: [on_exit 1 1]) =
  scanRejected (WorkerError RangeError).
Proof.
  apply (scanInParallel_first_rejection 2 (on_error 1 RangeError)); simpl.
  - lia.
  - reflexivity.
  - reflexivity.
  - intros [H|[H|[]]]; discriminate.
Defined.

Lemma flat_map_chunks {A} (g : nat -> list A) (f : string -> list A)
    (chunk : nat -> list string) (ws : list nat) :
  (forall w, In w ws -> g w = flat_map f (chunk w)) ->
  concat (map g ws) = flat_map f (concat (map chunk ws)).
Proof.
  induction ws as [|w ws IH]; intros H; simpl; [reflexivity|].
  rewrite flat_map_app, (H w) by (left; reflexivity).
  f_equal. apply IH. intros w' Hw'. apply H. right; exact Hw'.
Qed.

(** X22.  Any interleaving gives the same result.  When every worker runs
    [run] on its chunk of the files and exits with code 0, then however the
    events of the workers interleave, [scanInParallel] resolves to the
    findings of the files in the order of the files. *)
Theorem scanInParallel_any_interleaving
    (scan : string -> outcome (list ScanResult)) (files : list string)
    (numWorkers : nat) (trace : list event) :
  (0 < numWorkers)%nat ->
  forallb (fun ev => (worker_of ev <? numWorkers)%nat) trace = true ->
  map (fun w => events_of w trace) (seq 0 numWorkers) =
    imap (clean_run scan) (workerFiles files numWorkers) ->
  scanInParallel numWorkers trace =
  scanResolved (flat_map (file_results scan) files).
Proof.
  intros Hpos Hworkers Hevents.
  set (per := filesPerWorker files numWorkers).
  set (chunk := fun i => take per (drop (i * per) files)).
  assert (Hw : forall w, (w < numWorkers)%nat ->
            events_of w trace = clean_run scan w (chunk w)).
  { intros w Hlt. pose proof (f_equal (fun l => l !! w) Hevents) as H.
    simpl in H. rewrite lookup_map_seq in H by exact Hlt.
    rewrite list_lookup_imap in H. unfold workerFiles in H.
    rewrite lookup_map_seq in H by exact Hlt. simpl in H.
    injection H as H. exact H. }
  assert (Hin : forall ev, In ev trace ->
            In ev (clean_run scan (worker_of ev) (chunk (worker_of ev)))).
  { intros ev Hev. rewrite forallb_forall in Hworkers.
    pose proof (Hworkers ev Hev) as Hlt. apply Nat.ltb_lt in Hlt.
    rewrite <- (Hw _ Hlt). unfold events_of. apply filter_In.
    split; [exact Hev | apply Nat.eqb_refl]. }
  assert (Hbenign : forallb benign trace = true).
  { apply forallb_forall. intros ev Hev. apply Hin in Hev.
    unfold clean_run in Hev. apply in_app_iff in Hev as [Hev|[<-|[]]].
    - apply in_map_iff in Hev as (m & <- & _). reflexivity.
    - reflexivity. }
  assert (Hexit : forall w, (w < numWorkers)%nat -> In (on_exit w 0) trace).
  { intros w Hlt.
    assert (H : In (on_exit w 0) (events_of w trace)).
    { rewrite (Hw w Hlt). unfold clean_run. apply in_app_iff. right.
      left; reflexivity. }
    unfold events_of in H. apply filter_In in H as [H _]. exact H. }
  unfold scanInParallel. cbv zeta.
  set (start := mkPool _ _ _ _).
  rewrite fold_handle_benign_failure by exact Hbenign. simpl.
  assert (Hall : forallb is_resolved (promises (fold_left handle trace start)) = true).
  { apply forallb_forall. intros pr Hpr.
    apply list_elem_of_In, list_elem_of_lookup_1 in Hpr as [w Hpr].
    assert (Hlt : (w < numWorkers)%nat).
    { apply lookup_lt_Some in Hpr. rewrite fold_handle_promises_length in Hpr.
      simpl in Hpr. rewrite length_replicate in Hpr. exact Hpr. }
    rewrite (fold_handle_resolves trace start w Hbenign (Hexit w Hlt)) in Hpr.
    - injection Hpr as <-. reflexivity.
    - left. simpl. apply lookup_replicate_2, Hlt. }
  rewrite Hall. f_equal. unfold start. rewrite scan_buffers.
  rewrite <- (workerFiles_partition files numWorkers Hpos) at 1.
  unfold workerFiles. fold per. fold chunk.
  apply flat_map_chunks. intros w Hlt%in_seq.
  rewrite <- posted_events_of, Hw by lia. apply posted_clean_run.
Qed.

Lemma scanInParallel_any_interleaving_witness :
  scanInParallel 2 interleaved =
  scanResolved
    (flat_map (file_results (scanSourceFile bad_then_good)) ["bad.js"; "good.js"]).
Proof.
  apply (scanInParallel_any_interleaving (scanSourceFile bad_then_good)
           ["bad.js"; "good.js"] 2 interleaved).
  - lia.
  - reflexivity.
  - reflexivity.
Defined.

(** X23.  How the files are dealt out.  With at least one worker there are
    as many chunks as workers, no chunk holds more than
    [ceil(files / workers)] files, and the chunks in order make up the file
    list: every file goes to exactly one worker. *)
Theorem workerFiles_chunks (files : list string) (numWorkers : nat) :
  (0 < numWorkers)%nat ->
  length (workerFiles files numWorkers) = numWorkers /\
  Forall (fun chunk => (length chunk <= filesPerWorker files numWorkers)%nat)
    (workerFiles files numWorkers) /\
  (length files <= numWorkers * filesPerWorker files numWorkers)%nat /\
  concat (workerFiles files numWorkers) = files.
Proof.
  intros Hpos. split; [|split; [|split]].
  - unfold workerFiles. rewrite length_map, length_seq. reflexivity.
  - unfold workerFiles. apply Forall_forall. intros chunk Hin.
    apply list_elem_of_In, in_map_iff in Hin as (i & <- & _).
    rewrite length_take. lia.
  - unfold filesPerWorker.
    pose proof (Nat.div_mod_eq (length files + numWorkers - 1) numWorkers) as Hdiv.
    pose proof (Nat.mod_upper_bound (length files + numWorkers - 1) numWorkers) as Hmod.
    nia.
  - apply workerFiles_partition, Hpos.
Qed.

Lemma workerFiles_chunks_witness :
  workerFiles ["a.js"; "b.js"; "c.js"] 2 = [["a.js"; "b.js"]; ["c.js"]] /\
  concat (workerFiles ["a.js"; "b.js"; "c.js"] 2) = ["a.js"; "b.js"; "c.js"].
Proof.
  split; [reflexivity|].
  apply (workerFiles_chunks ["a.js"; "b.js"; "c.js"] 2). lia.
Defined.

End PoolLaws.

(** ** The cache *)

Section CacheLaws.
Import JS Scan Cache VulnerabilityCache Samples Cases.

(** X24.  Writing, then reading.  Reading a key after it was written gives
    back the entry with the time of the write while no more than [ttl] has
    passed; after that it gives nothing and removes the file.  Writing one
    key does not change what is read under another. *)
Theorem get_after_set (ttl now later : Z) (key : string) (d : DatabaseEntry)
    (tag : option string) (files : store) :
  get ttl later key (set now key d tag files) =
    (if later - now >? ttl then (None, delete key files)
     else (Some (mkCacheEntry now tag d), set now key d tag files)) /\
  (forall key', key' <> key ->
     (get ttl later key' (set now key d tag files)).1 =
     (get ttl later key' files).1).
Proof.
  split.
  - unfold get, set. rewrite lookup_insert_eq. simpl.
    destruct (later - now >? ttl); [|reflexivity].
    rewrite delete_insert_eq. reflexivity.
  - intros key' Hne. unfold get, set.
    rewrite lookup_insert_ne by congruence.
    destruct (files !! key') as [entry|]; [|reflexivity].
    destruct (later - timestamp entry >? ttl); reflexivity.
Qed.

Lemma findIndex_insert (s : string) (vs : list Vulnerability) (i : nat)
    (v : Vulnerability) :
  findIndex s vs = Some i -> summary v = s ->
  findIndex s (<[i := v]> vs) = Some i.
Proof.
  intros Hi Hv. revert i Hi; induction vs as [|w vs IH]; intros i;
    cbn [findIndex]; [discriminate|].
  destruct (String.eqb (summary w) s) eqn:Hw.
  - intros [= <-]. cbn. rewrite Hv, String.eqb_refl. reflexivity.
  - destruct (findIndex s vs) as [j|] eqn:Hj; [|discriminate].
    intros [= <-]. cbn [insert list_insert findIndex]. rewrite Hw.
    change (option_map S (findIndex s (<[j := v]> vs)) = Some (S j)).
    rewrite (IH j eq_refl). reflexivity.
Qed.

Lemma findIndex_app_None (s : string) (vs : list Vulnerability) (v : Vulnerability) :
  findIndex s vs = None -> summary v = s ->
  findIndex s (vs ++ [v]) = Some (length vs).
Proof.
  intros Hn Hv. induction vs as [|w vs IH]; cbn [findIndex app length].
  - rewrite Hv, String.eqb_refl. reflexivity.
  - cbn [findIndex] in Hn. destruct (String.eqb (summary w) s); [discriminate|].
    destruct (findIndex s vs); [discriminate|].
    rewrite (IH eq_refl). reflexivity.
Qed.

Lemma record_update_fixed (v : Vulnerability) (vs : list Vulnerability) :
  let vs' := match findIndex (summary v) vs with
             | Some index => <[index := v]> vs
             | None => (vs ++ [v])%list
             end in
  In v vs' /\
  match findIndex (summary v) vs' with
  | Some index => <[index := v]> vs'
  | None => (vs' ++ [v])%list
  end = vs'.
Proof.
  cbv zeta. destruct (findIndex (summary v) vs) as [i|] eqn:Hi.
  - destruct (findIndex_Some _ _ _ Hi) as (w & Hw & _).
    rewrite (findIndex_insert _ _ _ _ Hi eq_refl). split.
    + apply list_elem_of_In. apply (list_elem_of_lookup_2 _ i).
      apply list_lookup_insert_eq. eapply lookup_lt_Some, Hw.
    + apply list_insert_insert_eq.
  - rewrite (findIndex_app_None _ _ _ Hi eq_refl). split.
    + apply in_app_iff. right. left; reflexivity.
    + apply list_insert_id. rewrite lookup_app_r by lia.
      rewrite Nat.sub_diag. reflexivity.
Qed.

Lemma updateDatabase_holds_record (db db' : DatabaseEntry) (pkg : string)
    (v : Vulnerability) :
  updateDatabase db pkg v = Returns db' -> In v (knownVulnerabilities db' pkg).
Proof.
  unfold updateDatabase, knownVulnerabilities.
  destruct (db !! pkg) as [[[vs|]]|] eqn:Hpkg; cbn [bind vulnerabilities];
    try discriminate.
  - intros [= <-]. rewrite lookup_insert_eq.
    cbn [vulnerabilities default from_option id].
    apply (record_update_fixed v vs).
  - destruct (existsb (String.eqb pkg) Object_prototype); cbn [bind];
      [discriminate|].
    intros [= <-]. rewrite lookup_insert_eq. left; reflexivity.
Qed.

(** X25.  Updating twice is updating once.  After an update that returns,
    the record is among the records of the package, and the same update on
    the result returns the result unchanged. *)
Theorem updateDatabase_idempotent (db db' : DatabaseEntry) (pkg : string)
    (v : Vulnerability) :
  updateDatabase db pkg v = Returns db' ->
  In v (knownVulnerabilities db' pkg) /\
  updateDatabase db' pkg v = Returns db'.
Proof.
  unfold updateDatabase at 1.
  destruct (db !! pkg) as [[[vs|]]|] eqn:Hpkg; cbn [bind vulnerabilities];
    try discriminate.
  - intros [= <-].
    destruct (record_update_fixed v vs) as [Hin Hfix]. cbv zeta in Hin, Hfix.
    unfold knownVulnerabilities, updateDatabase.
    rewrite lookup_insert_eq. cbn [bind vulnerabilities default from_option id].
    split; [exact Hin|].
    rewrite Hfix, insert_insert_eq. reflexivity.
  - destruct (existsb (String.eqb pkg) Object_prototype); cbn [bind];
      [discriminate|].
    intros [= <-].
    unfold knownVulnerabilities, updateDatabase.
    rewrite lookup_insert_eq. cbn [bind vulnerabilities default from_option id].
    split; [left; reflexivity|].
    cbn [findIndex app]. rewrite String.eqb_refl.
    change (<[0%nat := v]> [v]) with [v].
    rewrite insert_insert_eq. reflexivity.
Qed.

Lemma updateDatabase_idempotent_witness :
  updateDatabase jquery_old_db "jquery" jquery_xss = Returns jquery_db /\
  In jquery_xss (knownVulnerabilities jquery_db "jquery") /\
  updateDatabase jquery_db "jquery" jquery_xss = Returns jquery_db.
Proof.
  assert (H : updateDatabase jquery_old_db "jquery" jquery_xss = Returns jquery_db).
  { unfold updateDatabase, jquery_old_db, jquery_db.
    rewrite lookup_singleton_eq. cbn. rewrite insert_singleton_eq. reflexivity. }
  split; [exact H|].
  apply (updateDatabase_idempotent jquery_old_db jquery_db "jquery" jquery_xss H).
Defined.

(** X26.  An update renews the entry.  When the entry of [url] is read in
    time and the update returns, the database read back within [ttl] of the
    write holds the record under its package, whatever the age of the entry
    before the update. *)
Theorem getVulnerabilities_after_update (ttl read written later : Z)
    (url pkg : string) (v : Vulnerability) (entry : CacheEntry)
    (files files' : store) :
  files !! url = Some entry ->
  read - timestamp entry <= ttl ->
  updateVulnerability ttl read written url pkg v files = (Returns tt, files') ->
  later - written <= ttl ->
  exists db,
    getVulnerabilities ttl later url files' = (Some db, files') /\
    In v (knownVulnerabilities db pkg).
Proof.
  intros Hentry Hread Hupdate Hlater.
  unfold updateVulnerability, get in Hupdate. rewrite Hentry in Hupdate.
  assert (Hfresh : (read - timestamp entry >? ttl) = false) by lia.
  rewrite Hfresh in Hupdate.
  destruct (updateDatabase (data entry) pkg v) as [db|e] eqn:Hdb;
    [|discriminate].
  injection Hupdate as <-. exists db. split.
  - unfold getVulnerabilities, get, set. rewrite lookup_insert_eq. simpl.
    assert (Hlive : (later - written >? ttl) = false) by lia.
    rewrite Hlive. reflexivity.
  - apply (updateDatabase_holds_record _ _ _ _ Hdb).
Qed.

Lemma getVulnerabilities_after_update_witness :
  exists db,
    getVulnerabilities 1000 1500 db_url
      (updateVulnerability 1000 500 600 db_url "jquery" jquery_xss one_entry).2 =
    (Some db,
     (updateVulnerability 1000 500 600 db_url "jquery" jquery_xss one_entry).2) /\
    In jquery_xss (knownVulnerabilities db "jquery").
Proof.
  apply (getVulnerabilities_after_update 1000 500 600 1500 db_url "jquery"
           jquery_xss (mkCacheEntry 0 (Some "v1") jquery_db) one_entry).
  - apply lookup_singleton_eq.
  - simpl. lia.
  - unfold updateVulnerability, get, one_entry. rewrite lookup_singleton_eq.
    reflexivity.
  - lia.
Defined.

End CacheLaws.

(** ** The token ids of the model *)

Section ModelLaws.
Import VulnerabilityModel.

Lemma ToInt32_wraps (x : Z) : exists k, ToInt32 x = x + 2 ^ 32 * k.
Proof.
  exists (- ((x + 2 ^ 31) / 2 ^ 32)). unfold ToInt32.
  pose proof (Z.div_mod (x + 2 ^ 31) (2 ^ 32)). lia.
Qed.

Lemma ToInt32_range (x : Z) : - 2 ^ 31 <= ToInt32 x < 2 ^ 31.
Proof.
  unfold ToInt32. pose proof (Z.mod_pos_bound (x + 2 ^ 31) (2 ^ 32)). lia.
Qed.

Lemma ToInt32_congruent (x y k : Z) : x = y + 2 ^ 32 * k -> ToInt32 x = ToInt32 y.
Proof.
  intros ->. unfold ToInt32. f_equal.
  replace (y + 2 ^ 32 * k + 2 ^ 31) with (y + 2 ^ 31 + k * 2 ^ 32) by lia.
  apply Z_mod_plus_full.
Qed.

Lemma hash_step_ToInt32 (a code : Z) :
  hash_step (ToInt32 a) code = ToInt32 (31 * a + code).
Proof.
  unfold hash_step. cbv zeta. rewrite Z.land_diag, Z.shiftl_mul_pow2 by lia.
  destruct (ToInt32_wraps a) as [k1 H1].
  destruct (ToInt32_wraps (ToInt32 a)) as [k2 H2].
  destruct (ToInt32_wraps (ToInt32 (ToInt32 a) * 2 ^ 5)) as [k3 H3].
  set (hash1 := ToInt32 (ToInt32 (ToInt32 a) * 2 ^ 5) - ToInt32 a + code) in *.
  destruct (ToInt32_wraps hash1) as [k4 H4].
  apply (ToInt32_congruent _ _ (31 * k1 + 32 * k2 + k3 + k4)).
  rewrite H4. unfold hash1. rewrite H3, H2, H1. lia.
Qed.

Lemma fold_left_wrapped {A B} (step poly : A -> B -> A) (wrap : A -> A) :
  (forall a c, step (wrap a) c = wrap (poly a c)) ->
  forall l a, fold_left step l (wrap a) = wrap (fold_left poly l a).
Proof.
  intros Hstep. induction l as [|c l IH]; intros a; [reflexivity|].
  cbn [fold_left]. rewrite Hstep. apply IH.
Qed.

Lemma fold_hash_step (str : token) (a : Z) :
  fold_left hash_step str (ToInt32 a) =
  ToInt32 (fold_left (fun h c => 31 * h + c) str a).
Proof.
  exact (fold_left_wrapped hash_step (fun h c => 31 * h + c) ToInt32
           hash_step_ToInt32 str a).
Qed.

Lemma ToInt32_0 : ToInt32 0 = 0.
Proof. reflexivity. Qed.

(** X27.  The hash is the base-31 polynomial, wrapped.  [hashString] of a
    string is the signed 32-bit wrap of the sum of its code units weighted
    by the powers of 31, and so lies between [-2^31] and [2^31 - 1]. *)
Theorem hashString_wraps_polynomial (str : token) :
  hashString str = ToInt32 (polynomial str) /\
  - 2 ^ 31 <= hashString str < 2 ^ 31.
Proof.
  assert (H : hashString str = ToInt32 (polynomial str)).
  { unfold hashString, polynomial. rewrite <- ToInt32_0 at 1.
    apply fold_hash_step. }
  split; [exact H|]. rewrite H. apply ToInt32_range.
Qed.

Lemma tokenToId_range (t : token) : 0 <= tokenToId t < 10000.
Proof.
  unfold tokenToId.
  pose proof (Z.rem_bound_abs (hashString t) 10000). lia.
Qed.

Lemma lookup_map {A B} (f : A -> B) (l : list A) (i : nat) :
  map f l !! i = f <$> l !! i.
Proof.
  revert i; induction l as [|x l IH]; intros [|i]; simpl; auto.
Qed.

(** X28.  The row fed to the model.  Whatever the tokens, the row has
    exactly [maxTokenLength] ids, each of them from 0 to 9999; the first
    ids are those of the tokens in order, and the places after the last
    token hold the id of the padding token. *)
Theorem inputIds_shape (maxTokenLength : nat) (tokens : list token) :
  length (inputIds maxTokenLength tokens) = maxTokenLength /\
  Forall (fun id => 0 <= id < 10000) (inputIds maxTokenLength tokens) /\
  (forall i t, (i < maxTokenLength)%nat -> tokens !! i = Some t ->
     inputIds maxTokenLength tokens !! i = Some (tokenToId t)) /\
  (forall i, (length tokens <= i < maxTokenLength)%nat ->
     inputIds maxTokenLength tokens !! i = Some (tokenToId PAD)).
Proof.
  unfold inputIds, paddedTokens. cbv zeta. split; [|split; [|split]].
  - rewrite length_map, length_app, length_take, length_replicate. lia.
  - apply Forall_forall. intros id Hid.
    apply list_elem_of_In, in_map_iff in Hid as (t & <- & _).
    apply tokenToId_range.
  - intros i t Hi Ht. rewrite lookup_map.
    rewrite lookup_app_l by (rewrite length_take; apply lookup_lt_Some in Ht; lia).
    rewrite lookup_take_lt by exact Hi. rewrite Ht. reflexivity.
  - intros i Hi. rewrite lookup_map.
    rewrite lookup_app_r by (rewrite length_take; lia).
    rewrite lookup_replicate_2 by (rewrite length_take; lia). reflexivity.
Qed.

End ModelLaws.

(** ** The walk over a project *)

Section ProjectLaws.
Import JS Scan Project.

Variable join : string -> string -> string.
Variable scanPackageJson : string -> list ScanResult.
Variable scanSourceFile : string -> list ScanResult.

Lemma entry_nested_ind (P : entry -> Prop) :
  (forall name, P (File name)) ->
  (forall name entries, Forall P entries -> P (Directory name entries)) ->
  (forall name, P (Unreadable name)) ->
  forall e, P e.
Proof.
  intros HF HD HU. fix IH 1. intros [name|name entries|name];
    [apply HF | | apply HU].
  apply HD. induction entries as [|e entries IHentries]; constructor;
    [apply IH | exact IHentries].
Qed.

Lemma fold_left_extends {A B} (f : list A -> B -> list A) (l : list B) :
  Forall (fun b => forall acc, f acc b = (acc ++ f [] b)%list) l ->
  forall acc, fold_left f l acc = (acc ++ fold_left f l [])%list.
Proof.
  induction 1 as [|b l Hb _ IH]; intros acc; simpl.
  - rewrite app_nil_r. reflexivity.
  - rewrite IH, (IH (f [] b)), Hb, app_assoc. reflexivity.
Qed.

Lemma scanProjectFiles_entry_extends
    (scanPkg scanSrc : string -> list ScanResult) (e : entry) :
  forall dirPath found,
    scanProjectFiles_entry join scanPkg scanSrc dirPath e found =
    (found ++ scanProjectFiles_entry join scanPkg scanSrc dirPath e [])%list.
Proof.
  induction e as [name|name entries IH|name] using entry_nested_ind;
    intros dirPath found; cbn [scanProjectFiles_entry].
  - destruct (isPackageJsonFile name); [reflexivity|].
    destruct (isJavaScriptSourceFile name); [reflexivity|].
    rewrite app_nil_r. reflexivity.
  - destruct (shouldScanDirectory name); [|rewrite app_nil_r; reflexivity].
    apply (fold_left_extends
             (fun found e' =>
                scanProjectFiles_entry join scanPkg scanSrc
                  (join dirPath name) e' found)).
    eapply Forall_impl; [exact IH|]. intros e' He' acc. apply He'.
  - rewrite app_nil_r. reflexivity.
Qed.

Lemma collectSourceFiles_entry_extends (e : entry) :
  forall dirPath files,
    collectSourceFiles_entry join dirPath e files =
    (files ++ collectSourceFiles_entry join dirPath e [])%list.
Proof.
  induction e as [name|name entries IH|name] using entry_nested_ind;
    intros dirPath files; cbn [collectSourceFiles_entry].
  - destruct (isJavaScriptSourceFile name); [reflexivity|].
    rewrite app_nil_r. reflexivity.
  - destruct (shouldScanDirectory name); [|rewrite app_nil_r; reflexivity].
    apply (fold_left_extends
             (fun found e' => collectSourceFiles_entry join (join dirPath name) e' found)).
    eapply Forall_impl; [exact IH|]. intros e' He' acc. apply He'.
  - rewrite app_nil_r. reflexivity.
Qed.

Lemma endsWith_package_json (name : string) :
  isPackageJsonFile name = true -> isJavaScriptSourceFile name = false.
Proof.
  unfold isPackageJsonFile, isJavaScriptSourceFile.
  intros H%String.eqb_eq. rewrite H. reflexivity.
Qed.

(** X29.  The two walks meet the same source files.  Leaving the manifests
    aside, what the sequential walk adds to the findings is the findings of
    the files the parallel walk collects, in the order it collects them;
    both skip the same directories and a listing that fails. *)
Theorem scanProjectFiles_scans_collected (dirPath : string) (entries : list entry)
    (found : list ScanResult) :
  scanProjectFiles join (fun _ => []) scanSourceFile dirPath entries found =
  (found ++
   flat_map scanSourceFile (collectSourceFiles join dirPath entries []))%list.
Proof.
  assert (Hcollect : forall dir es acc,
            fold_left (fun found e' => collectSourceFiles_entry join dir e' found)
              es acc =
            (acc ++ fold_left
                      (fun found e' => collectSourceFiles_entry join dir e' found)
                      es [])%list).
  { intros dir es. apply fold_left_extends, Forall_forall. intros e' _ acc.
    apply collectSourceFiles_entry_extends. }
  assert (Hscan : forall dir es acc,
            fold_left
              (fun found e' =>
                 scanProjectFiles_entry join (fun _ => []) scanSourceFile dir e' found)
              es acc =
            (acc ++ fold_left
                      (fun found e' =>
                         scanProjectFiles_entry join (fun _ => []) scanSourceFile
                           dir e' found)
                      es [])%list).
  { intros dir es. apply fold_left_extends, Forall_forall. intros e' _ acc.
    apply scanProjectFiles_entry_extends. }
  assert (Hentry : forall e dir,
            scanProjectFiles_entry join (fun _ => []) scanSourceFile dir e [] =
            flat_map scanSourceFile (collectSourceFiles_entry join dir e [])).
  { induction e as [name|name es IH|name] using entry_nested_ind; intros dir;
      cbn [scanProjectFiles_entry collectSourceFiles_entry]; [| |reflexivity].
    - destruct (isPackageJsonFile name) eqn:Hp.
      + rewrite (endsWith_package_json name Hp). reflexivity.
      + destruct (isJavaScriptSourceFile name); [|reflexivity].
        simpl. rewrite app_nil_r. reflexivity.
    - destruct (shouldScanDirectory name); [|reflexivity].
      generalize (join dir name). intros sub.
      induction IH as [|e es He _ IHes]; [reflexivity|].
      cbn [fold_left].
      rewrite (Hscan sub es (scanProjectFiles_entry _ _ _ sub e [])).
      rewrite (Hcollect sub es (collectSourceFiles_entry join sub e [])).
      rewrite flat_map_app, He, IHes. reflexivity. }
  unfold scanProjectFiles, collectSourceFiles.
  revert found. induction entries as [|e entries IH]; intros found;
    cbn [fold_left].
  - rewrite app_nil_r. reflexivity.
  - rewrite IH.
    rewrite (Hcollect dirPath entries (collectSourceFiles_entry join dirPath e [])).
    rewrite scanProjectFiles_entry_extends, Hentry, flat_map_app, app_assoc.
    reflexivity.
Qed.

Lemma scanProjectFiles_extends (dirPath : string) (entries : list entry)
    (found : list ScanResult) :
  scanProjectFiles join scanPackageJson scanSourceFile dirPath entries found =
  (found ++
   scanProjectFiles join scanPackageJson scanSourceFile dirPath entries [])%list.
Proof.
  unfold scanProjectFiles. revert found.
  apply fold_left_extends, Forall_forall. intros e' _ acc.
  apply scanProjectFiles_entry_extends.
Qed.

(** X30.  The manifest of the project directory is scanned twice.  When
    the listing of the project directory holds the file [package.json],
    [scanProject] adds the findings of that manifest once before the walk
    and once more when the walk meets the file; [scanProjectInParallel]
    adds them once, before what the workers found in the source files. *)
Theorem scanProject_root_manifest_twice (minSeverity projectPath : string)
    (before after : list entry) (scanInParallel : list string -> list ScanResult) :
  let manifest := scanPackageJson (join projectPath "package.json") in
  let walk := scanProjectFiles join scanPackageJson scanSourceFile projectPath in
  let files := collectSourceFiles join projectPath (before ++ after) [] in
  scanProject join scanPackageJson scanSourceFile minSeverity projectPath
    (before ++ File "package.json" :: after) =
    filterBySeverity minSeverity
      (manifest ++ walk before [] ++ manifest ++ walk after []) /\
  scanProjectInParallel join scanPackageJson minSeverity projectPath
    (before ++ File "package.json" :: after) scanInParallel =
    filterBySeverity minSeverity
      (manifest ++ (if (0 <? length files)%nat then scanInParallel files else [])).
Proof.
  cbv zeta.
  assert (Hexists :
    existsb (fun e => String.eqb (name_of e) "package.json")
      (before ++ File "package.json" :: after) = true).
  { rewrite existsb_app. cbn [existsb name_of].
    rewrite String.eqb_refl, orb_true_r. reflexivity. }
  split.
  - unfold scanProject. cbv zeta. rewrite Hexists. f_equal.
    unfold scanProjectFiles at 1. rewrite fold_left_app. cbn [fold_left].
    cbn [scanProjectFiles_entry].
    change (isPackageJsonFile "package.json") with true. cbv iota.
    fold (scanProjectFiles join scanPackageJson scanSourceFile projectPath before
            (scanPackageJson (join projectPath "package.json"))).
    match goal with
    | |- fold_left ?f after ?acc = _ =>
        change (fold_left f after acc)
          with (scanProjectFiles join scanPackageJson scanSourceFile projectPath
                  after acc)
    end.
    rewrite (scanProjectFiles_extends projectPath after).
    rewrite (scanProjectFiles_extends projectPath before).
    rewrite <- !app_assoc. reflexivity.
  - unfold scanProjectInParallel. cbv zeta. rewrite Hexists.
    assert (Hfiles :
      collectSourceFiles join projectPath (before ++ File "package.json" :: after) [] =
      collectSourceFiles join projectPath (before ++ after) []).
    { unfold collectSourceFiles. rewrite !fold_left_app. reflexivity. }
    rewrite Hfiles.
    destruct (0 <? length (collectSourceFiles join projectPath (before ++ after) []))%nat;
      [reflexivity | rewrite app_nil_r; reflexivity].
Qed.

End ProjectLaws.
